(** * The lexical review-scoring engine of [main.py]

    A shallow embedding of the pure functions of [main.py]: the text
    normalizer [_normalize], the adjective lexicon ([ADJ_SCALE],
    [_expand_adj_variants], [_build_adj_index], [ADJ_IDX]), the keyword
    lists [FOOD_KW] and [SERVICE_KW], the sentence scorer
    [_score_for_sentence] with its inner [_positions], the review
    segmenter [fetch_restaurant_data], the dimension analyzer
    [analyze_reviews] and the aggregator [calculate_overall_score].

    Conventions.
    - A Python [str] is a list of Unicode code points ([list N]); offsets
      count code points, as Python's do.
    - Python integers are [Z]; [str.find] returns [-1] when nothing is found.
    - Python floats are IEEE 754 binary64 values, the kernel's [float].
    - A [dict] is a [gmap]; the corpus, whose iteration order is observable,
      is an association list in insertion order.
    - A raised exception is [None] in the option monad. *)

From Stdlib Require Import ZArith NArith List Bool Lia String Ascii Floats.
From stdpp Require Import gmap strings list fin_maps.

Abbreviation str := (list N).

(** A Python string literal restricted to ASCII. *)
Definition py (s : string) : str :=
  map N_of_ascii (list_ascii_of_string s).
Arguments py s%_string.

(** ** Unicode: the part of CPython's [str.lower] and
    [unicodedata.normalize("NFD", _)] that [_normalize] relies on *)

Module Unicode.

(** The Unicode Character Database, as far as the normalizer reads it.
    [canonical_decomposition] is the full (recursively expanded) canonical
    decomposition of a code point, the code point itself when it has
    none. *)
Record UCD := {
  tolower_full : N -> list N;
  is_cased : N -> bool;
  is_case_ignorable : N -> bool;
  canonical_decomposition : N -> list N;
  combining : N -> N;
  category : N -> string
}.

Definition CAPITAL_SIGMA : N := 0x3A3.
Definition SMALL_SIGMA : N := 0x3C3.
Definition SMALL_FINAL_SIGMA : N := 0x3C2.

Section Algorithms.
Context (U : UCD).

Fixpoint skip_case_ignorable (l : list N) : list N :=
  match l with
  | c :: rest => if is_case_ignorable U c then skip_case_ignorable rest else l
  | [] => []
  end.

(** CPython's [handle_capital_sigma]: a capital sigma is final when the
    nearest character before it that is not case-ignorable is cased and
    the nearest such character after it (if any) is not. *)
Definition final_sigma (before_rev after : list N) : bool :=
  match skip_case_ignorable before_rev with
  | c :: _ =>
      is_cased U c &&
      match skip_case_ignorable after with
      | [] => true
      | c' :: _ => negb (is_cased U c')
      end
  | [] => false
  end.

Definition lower_char (before_rev : list N) (c : N) (after : list N) : list N :=
  if (c =? CAPITAL_SIGMA)%N
  then [if final_sigma before_rev after then SMALL_FINAL_SIGMA else SMALL_SIGMA]
  else tolower_full U c.

Fixpoint lower_from (before_rev s : list N) : list N :=
  match s with
  | [] => []
  | c :: after => lower_char before_rev c after ++ lower_from (c :: before_rev) after
  end.

(** [str.lower()] *)
Definition lower (s : list N) : list N := lower_from [] s.

Definition decompose (s : list N) : list N :=
  flat_map (canonical_decomposition U) s.

(** Canonical ordering: a character of non-zero combining class moves
    left past the characters of greater class that precede it, and
    stops at a starter (class 0). [rev_out] is the output so far, last
    character first. *)
Fixpoint insert_mark (c : N) (rev_out : list N) : list N :=
  match rev_out with
  | p :: rest =>
      if (combining U p =? 0)%N || (combining U p <=? combining U c)%N
      then c :: rev_out
      else p :: insert_mark c rest
  | [] => [c]
  end.

Definition reorder_step (rev_out : list N) (c : N) : list N :=
  if (combining U c =? 0)%N then c :: rev_out else insert_mark c rev_out.

Definition canonical_order (s : list N) : list N :=
  rev (fold_left reorder_step s []).

(** [unicodedata.normalize("NFD", s)]: full canonical decomposition, then
    canonical ordering. *)
Definition NFD (s : list N) : list N := canonical_order (decompose s).

End Algorithms.

(** *** The database entries of Basic Latin, Latin-1 Supplement, the
    Combining Diacritical Marks, the Greek sigmas and two musical
    combining marks (Unicode 14). Code points outside these blocks get
    the defaults of an unassigned code point. *)

Fixpoint range_lookup {A} (tbl : list (N * N * A)) (c : N) : option A :=
  match tbl with
  | [] => None
  | (lo, hi, v) :: rest =>
      if (lo <=? c)%N && (c <=? hi)%N then Some v else range_lookup rest c
  end.

(** Offset from an upper-case letter to its lower-case mapping. *)
Definition lowercase_table : list (N * N * N) :=
  [ (0x41, 0x5A, 32); (0xC0, 0xD6, 32); (0xD8, 0xDE, 32);
    (0x3A3, 0x3A3, 32) ]%N.

Definition cased_table : list (N * N * unit) :=
  [ (0x41, 0x5A, tt); (0x61, 0x7A, tt); (0xAA, 0xAA, tt); (0xB5, 0xB5, tt);
    (0xBA, 0xBA, tt); (0xC0, 0xD6, tt); (0xD8, 0xF6, tt); (0xF8, 0xFF, tt);
    (0x345, 0x345, tt); (0x3A3, 0x3A3, tt); (0x3C2, 0x3C3, tt) ]%N.

Definition case_ignorable_table : list (N * N * unit) :=
  [ (0x27, 0x27, tt); (0x2E, 0x2E, tt); (0x3A, 0x3A, tt); (0x5E, 0x5E, tt);
    (0x60, 0x60, tt); (0xA8, 0xA8, tt); (0xAD, 0xAD, tt); (0xAF, 0xAF, tt);
    (0xB4, 0xB4, tt); (0xB7, 0xB8, tt); (0x300, 0x36F, tt) ]%N.

Definition decomposition_table : list (N * N * list N) :=
  [ (0xC0, 0xC0, [0x41; 0x300]); (0xC1, 0xC1, [0x41; 0x301]);
    (0xC2, 0xC2, [0x41; 0x302]); (0xC3, 0xC3, [0x41; 0x303]);
    (0xC4, 0xC4, [0x41; 0x308]); (0xC5, 0xC5, [0x41; 0x30A]);
    (0xC7, 0xC7, [0x43; 0x327]); (0xC8, 0xC8, [0x45; 0x300]);
    (0xC9, 0xC9, [0x45; 0x301]); (0xCA, 0xCA, [0x45; 0x302]);
    (0xCB, 0xCB, [0x45; 0x308]); (0xCC, 0xCC, [0x49; 0x300]);
    (0xCD, 0xCD, [0x49; 0x301]); (0xCE, 0xCE, [0x49; 0x302]);
    (0xCF, 0xCF, [0x49; 0x308]); (0xD1, 0xD1, [0x4E; 0x303]);
    (0xD2, 0xD2, [0x4F; 0x300]); (0xD3, 0xD3, [0x4F; 0x301]);
    (0xD4, 0xD4, [0x4F; 0x302]); (0xD5, 0xD5, [0x4F; 0x303]);
    (0xD6, 0xD6, [0x4F; 0x308]); (0xD9, 0xD9, [0x55; 0x300]);
    (0xDA, 0xDA, [0x55; 0x301]); (0xDB, 0xDB, [0x55; 0x302]);
    (0xDC, 0xDC, [0x55; 0x308]); (0xDD, 0xDD, [0x59; 0x301]);
    (0xE0, 0xE0, [0x61; 0x300]); (0xE1, 0xE1, [0x61; 0x301]);
    (0xE2, 0xE2, [0x61; 0x302]); (0xE3, 0xE3, [0x61; 0x303]);
    (0xE4, 0xE4, [0x61; 0x308]); (0xE5, 0xE5, [0x61; 0x30A]);
    (0xE7, 0xE7, [0x63; 0x327]); (0xE8, 0xE8, [0x65; 0x300]);
    (0xE9, 0xE9, [0x65; 0x301]); (0xEA, 0xEA, [0x65; 0x302]);
    (0xEB, 0xEB, [0x65; 0x308]); (0xEC, 0xEC, [0x69; 0x300]);
    (0xED, 0xED, [0x69; 0x301]); (0xEE, 0xEE, [0x69; 0x302]);
    (0xEF, 0xEF, [0x69; 0x308]); (0xF1, 0xF1, [0x6E; 0x303]);
    (0xF2, 0xF2, [0x6F; 0x300]); (0xF3, 0xF3, [0x6F; 0x301]);
    (0xF4, 0xF4, [0x6F; 0x302]); (0xF5, 0xF5, [0x6F; 0x303]);
    (0xF6, 0xF6, [0x6F; 0x308]); (0xF9, 0xF9, [0x75; 0x300]);
    (0xFA, 0xFA, [0x75; 0x301]); (0xFB, 0xFB, [0x75; 0x302]);
    (0xFC, 0xFC, [0x75; 0x308]); (0xFD, 0xFD, [0x79; 0x301]);
    (0xFF, 0xFF, [0x79; 0x308]);
    (0x340, 0x340, [0x300]); (0x341, 0x341, [0x301]);
    (0x343, 0x343, [0x313]); (0x344, 0x344, [0x308; 0x301]) ]%N.

Definition combining_table : list (N * N * N) :=
  [ (0x300, 0x314, 230); (0x315, 0x315, 232); (0x316, 0x319, 220);
    (0x31A, 0x31A, 232); (0x31B, 0x31B, 216); (0x31C, 0x320, 220);
    (0x321, 0x322, 202); (0x323, 0x326, 220); (0x327, 0x328, 202);
    (0x329, 0x333, 220); (0x334, 0x338, 1); (0x339, 0x33C, 220);
    (0x33D, 0x344, 230); (0x345, 0x345, 240); (0x346, 0x346, 230);
    (0x347, 0x349, 220); (0x34A, 0x34C, 230); (0x34D, 0x34E, 220);
    (0x350, 0x352, 230); (0x353, 0x356, 220); (0x357, 0x357, 230);
    (0x358, 0x358, 232); (0x359, 0x35A, 220); (0x35B, 0x35B, 230);
    (0x35C, 0x35C, 233); (0x35D, 0x35E, 234); (0x35F, 0x35F, 233);
    (0x360, 0x361, 234); (0x362, 0x362, 233); (0x363, 0x36F, 230);
    (0x1D165, 0x1D165, 216); (0x1D16D, 0x1D16D, 226) ]%N.

Definition category_table : list (N * N * string) :=
  [ (0x00, 0x1F, "Cc"); (0x20, 0x20, "Zs"); (0x21, 0x23, "Po");
    (0x24, 0x24, "Sc"); (0x25, 0x27, "Po"); (0x28, 0x28, "Ps");
    (0x29, 0x29, "Pe"); (0x2A, 0x2A, "Po"); (0x2B, 0x2B, "Sm");
    (0x2C, 0x2C, "Po"); (0x2D, 0x2D, "Pd"); (0x2E, 0x2F, "Po");
    (0x30, 0x39, "Nd"); (0x3A, 0x3B, "Po"); (0x3C, 0x3E, "Sm");
    (0x3F, 0x40, "Po"); (0x41, 0x5A, "Lu"); (0x5B, 0x5B, "Ps");
    (0x5C, 0x5C, "Po"); (0x5D, 0x5D, "Pe"); (0x5E, 0x5E, "Sk");
    (0x5F, 0x5F, "Pc"); (0x60, 0x60, "Sk"); (0x61, 0x7A, "Ll");
    (0x7B, 0x7B, "Ps"); (0x7C, 0x7C, "Sm"); (0x7D, 0x7D, "Pe");
    (0x7E, 0x7E, "Sm"); (0x7F, 0x9F, "Cc"); (0xA0, 0xA0, "Zs");
    (0xA1, 0xA1, "Po"); (0xA2, 0xA5, "Sc"); (0xA6, 0xA6, "So");
    (0xA7, 0xA7, "Po"); (0xA8, 0xA8, "Sk"); (0xA9, 0xA9, "So");
    (0xAA, 0xAA, "Lo"); (0xAB, 0xAB, "Pi"); (0xAC, 0xAC, "Sm");
    (0xAD, 0xAD, "Cf"); (0xAE, 0xAE, "So"); (0xAF, 0xAF, "Sk");
    (0xB0, 0xB0, "So"); (0xB1, 0xB1, "Sm"); (0xB2, 0xB3, "No");
    (0xB4, 0xB4, "Sk"); (0xB5, 0xB5, "Ll"); (0xB6, 0xB7, "Po");
    (0xB8, 0xB8, "Sk"); (0xB9, 0xB9, "No"); (0xBA, 0xBA, "Lo");
    (0xBB, 0xBB, "Pf"); (0xBC, 0xBE, "No"); (0xBF, 0xBF, "Po");
    (0xC0, 0xD6, "Lu"); (0xD7, 0xD7, "Sm"); (0xD8, 0xDE, "Lu");
    (0xDF, 0xF6, "Ll"); (0xF7, 0xF7, "Sm"); (0xF8, 0xFF, "Ll");
    (0x300, 0x36F, "Mn"); (0x3A3, 0x3A3, "Lu"); (0x3C2, 0x3C3, "Ll");
    (0x1D165, 0x1D165, "Mc"); (0x1D16D, 0x1D16D, "Mc") ]%N%string.

Definition ucd : UCD := {|
  tolower_full c :=
    match range_lookup lowercase_table c with
    | Some delta => [(c + delta)%N]
    | None => [c]
    end;
  is_cased c := bool_decide (is_Some (range_lookup cased_table c));
  is_case_ignorable c := bool_decide (is_Some (range_lookup case_ignorable_table c));
  canonical_decomposition c := default [c] (range_lookup decomposition_table c);
  combining c := default 0%N (range_lookup combining_table c);
  category c := default "Cn"%string (range_lookup category_table c)
|}.

End Unicode.

(** ** Python built-ins on [str], [int] and [float] *)

Module Py.

(** The code points for which [str.isspace] holds; [str.strip()] removes
    exactly these. *)
Definition whitespace_table : list (N * N * unit) :=
  [ (0x09, 0x0D, tt); (0x1C, 0x20, tt); (0x85, 0x85, tt); (0xA0, 0xA0, tt);
    (0x1680, 0x1680, tt); (0x2000, 0x200A, tt); (0x2028, 0x2029, tt);
    (0x202F, 0x202F, tt); (0x205F, 0x205F, tt); (0x3000, 0x3000, tt) ]%N.

Definition isspace (c : N) : bool :=
  bool_decide (is_Some (Unicode.range_lookup whitespace_table c)).

(** [s.lstrip(chars)], with the set of stripped characters as a test. *)
Fixpoint lstrip_by (strip_it : N -> bool) (s : str) : str :=
  match s with
  | c :: rest => if strip_it c then lstrip_by strip_it rest else s
  | [] => []
  end.

Definition rstrip_by (strip_it : N -> bool) (s : str) : str :=
  rev (lstrip_by strip_it (rev s)).

(** [s.strip()] *)
Definition strip (s : str) : str := rstrip_by isspace (lstrip_by isspace s).

(** [c in chars] for a character [c] *)
Definition char_in (chars : str) (c : N) : bool := existsb (N.eqb c) chars.

(** [s.rstrip(chars)] *)
Definition rstrip (chars : str) (s : str) : str := rstrip_by (char_in chars) s.

(** [s.startswith(prefix)] *)
Fixpoint startswith (s prefix : str) {struct prefix} : bool :=
  match prefix, s with
  | [], _ => true
  | p :: prefix', c :: s' => (p =? c)%N && startswith s' prefix'
  | _ :: _, [] => false
  end.

(** [s.endswith(suffix)] *)
Definition endswith (s suffix : str) : bool := startswith (rev s) (rev suffix).

(** [s[:-n]] for [n > 0] *)
Definition drop_last (n : nat) (s : str) : str := take (length s - n) s.

(** [needle in hay] *)
Fixpoint contains (needle hay : str) : bool :=
  startswith hay needle ||
  match hay with
  | [] => false
  | _ :: hay' => contains needle hay'
  end.

(** The least offset [i + k] such that [needle] is a prefix of [hay]
    with its first [k] characters dropped. *)
Fixpoint find_aux (hay needle : str) (i : nat) : option nat :=
  if startswith hay needle then Some i
  else match hay with
       | [] => None
       | _ :: hay' => find_aux hay' needle (S i)
       end.

(** [hay.find(needle, start)] *)
Definition find (hay needle : str) (start : Z) : Z :=
  let len := Z.of_nat (length hay) in
  let start := if (start <? 0)%Z then Z.max 0 (start + len) else start in
  if (len <? start)%Z then (-1)%Z
  else match find_aux (drop (Z.to_nat start) hay) needle (Z.to_nat start) with
       | Some j => Z.of_nat j
       | None => (-1)%Z
       end.

(** [s.replace(old, new)] for a one-character [old] *)
Definition replace (old : N) (new : str) (s : str) : str :=
  flat_map (fun c => if (c =? old)%N then new else [c]) s.

(** [float(z)] for an integer [z]: the nearest double, ties to even;
    [OverflowError] when that is not finite. *)
Definition float_of_int (z : Z) : option float :=
  let f := SF2Prim (binary_normalize prec emax z 0 false) in
  if PrimFloat.is_infinity f then None else Some f.

(** [math.sqrt(x)]: [ValueError] on a negative argument. *)
Definition math_sqrt (x : float) : option float :=
  if PrimFloat.ltb x 0%float then None else Some (PrimFloat.sqrt x).

(** The text [f"{x:.3f}"]: sign and number of thousandths, or a special
    value. *)
Inductive fixed3 :=
| Fixed3 (negative : bool) (thousandths : Z)
| Inf3 (negative : bool)
| Nan3.

Definition round_half_even (num den : Z) : Z :=
  let q := (num / den)%Z in
  let r2 := (2 * (num mod den))%Z in
  if (r2 <? den)%Z then q
  else if (den <? r2)%Z then (q + 1)%Z
  else if Z.even q then q else (q + 1)%Z.

(** [f"{x:.3f}"]: the exact binary value of [x], rounded to three
    decimal places (ties to even). *)
Definition format_3f (x : float) : fixed3 :=
  match Prim2SF x with
  | S754_zero s => Fixed3 s 0
  | S754_infinity s => Inf3 s
  | S754_nan => Nan3
  | S754_finite s m e =>
      Fixed3 s (if (0 <=? e)%Z then (Z.pos m * 1000 * 2 ^ e)%Z
                else round_half_even (Z.pos m * 1000) (2 ^ (- e)))
  end.

(** [float(text)] on such a text: the double nearest to
    [thousandths / 1000]. *)
Definition float_of_fixed3 (d : fixed3) : float :=
  match d with
  | Fixed3 s (Z.pos n) =>
      SF2Prim (SFdiv prec emax (S754_finite s n 0) (S754_finite false 1000 0))
  | Fixed3 s _ => SF2Prim (S754_zero s)
  | Inf3 s => if s then neg_infinity else infinity
  | Nan3 => nan
  end.

End Py.

(** ** Utilitários *)

Section Normalize.
Context (U : Unicode.UCD).

(** [_normalize]: lower-case, then drop the non-spacing marks of the
    canonical decomposition. *)
Definition _normalize (s : str) : str :=
  let s := Unicode.lower U s in
  filter (fun c => Unicode.category U c ≠ "Mn"%string) (Unicode.NFD U s).

End Normalize.

(** The parsing loop of [_load_reviews], on the lines of
    [restaurantes.txt]. *)

(** [s.split(sep, 1)]: [None] when [sep] does not occur, the parts around
    its first occurrence otherwise. *)
Definition split_once (sep s : str) : option (str * str) :=
  j ← Py.find_aux s sep 0;
  Some (take j s, drop (j + length sep) s).

(** [data[name] = review] on a dict kept in insertion order: a known key
    keeps its place. *)
Fixpoint dict_set (data : list (str * str)) (name review : str) : list (str * str) :=
  match data with
  | [] => [(name, review)]
  | (n, r) :: rest =>
      if bool_decide (n = name) then (n, review) :: rest
      else (n, r) :: dict_set rest name review
  end.

Definition load_line (data : list (str * str)) (line : str) : list (str * str) :=
  let line := Py.strip line in
  if bool_decide (line = []) then data
  else
    let '(name, review) :=
      match split_once (py ". ") line with
      | Some (name, review) => (name, review)
      | None =>
          match split_once (py ".") line with
          | Some (name, rest) => (name, Py.lstrip_by Py.isspace rest)
          | None => (line, [])
          end
      end in
    dict_set data (Py.strip name) (Py.strip review).

Definition _load_reviews (lines : list str) : list (str * str) :=
  fold_left load_line lines [].

(** ** Léxico *)

Definition ADJ_SCALE : gmap Z (list str) :=
  list_to_map
    [ (1%Z, [py "horrivel"; py "nojento"; py "terrivel"]);
      (2%Z, [py "ruim"; py "desagradavel"; py "ofensivo"]);
      (3%Z, [py "mediano"; py "sem graca"; py "irrelevante"]);
      (4%Z, [py "bom"; py "agradavel"; py "satisfatorio"]);
      (5%Z, [py "incrivel"; py "impressionante"; py "surpreendente"]) ].

(** [variants.update(forms)] on the set [variants] *)
Definition update (variants : gset str) (forms : list str) : gset str :=
  variants ∪ list_to_set forms.

(** [_expand_adj_variants]. [variants] is a Python set; the order of
    [list(variants)] is the order of [elements], which nothing below
    depends on. *)
Definition _expand_adj_variants (adj : str) : list str :=
  let a := adj in
  let variants : gset str := {[ a ]} in
  if bool_decide (a = py "bom") then
    elements (update variants [py "boa"; py "bons"; py "boas"])
  else if bool_decide (a = py "ruim") then
    elements (variants ∪ {[ py "ruins" ]})
  else
    let variants :=
      if Py.endswith a (py "o") then
        let stem := Py.drop_last 1 a in
        update variants [stem ++ py "a"; stem ++ py "os"; stem ++ py "as"]
      else variants in
    let variants :=
      if Py.endswith a (py "ivel")
      then variants ∪ {[ Py.drop_last 4 a ++ py "iveis" ]} else variants in
    let variants :=
      if Py.endswith a (py "vel")
      then variants ∪ {[ Py.drop_last 3 a ++ py "veis" ]} else variants in
    let variants :=
      if Py.endswith a (py "el")
      then variants ∪ {[ Py.drop_last 2 a ++ py "eis" ]} else variants in
    let variants :=
      if Py.endswith a (py "ente") || Py.endswith a (py "ante")
      then variants ∪ {[ a ++ py "s" ]} else variants in
    let variants :=
      if Py.endswith a (py "ivo") then
        let stem := Py.drop_last 3 a in
        update variants [stem ++ py "iva"; stem ++ py "ivos"; stem ++ py "ivas"]
      else variants in
    elements variants.

(** The de-duplication loop of [_build_adj_index]: the first occurrence of
    each form is kept, in order. *)
Fixpoint uniq_loop (bucket : list str) (seen : gset str) (uniq : list str) : list str :=
  match bucket with
  | [] => uniq
  | x :: rest =>
      if decide (x ∈ seen) then uniq_loop rest seen uniq
      else uniq_loop rest ({[ x ]} ∪ seen) (uniq ++ [x])
  end.

Definition expand_bucket (adjs : list str) : list str :=
  let bucket := flat_map _expand_adj_variants adjs in
  uniq_loop bucket ∅ [].

(** [_build_adj_index]: every key of [scale] gets its expanded bucket. *)
Definition _build_adj_index (scale : gmap Z (list str)) : gmap Z (list str) :=
  expand_bucket <$> scale.

Definition ADJ_IDX : gmap Z (list str) := _build_adj_index ADJ_SCALE.

Definition FOOD_KW : list str :=
  [ py "comida"; py "pastel"; py "sanduiche"; py "sanduiches"; py "frango";
    py "hamburguer"; py "hamburgueres"; py "cafe"; py "doces"; py "donuts";
    py "pratos"; py "saladas"; py "sopas"; py "cookie"; py "cookies" ].

Definition SERVICE_KW : list str :=
  [ py "atendimento"; py "funcionarios"; py "garcons"; py "servico";
    py "equipe"; py "baristas"; py "garcom"; py "espera" ].

(** ** The sentence scorer *)

(** The [while True] loop of [_positions]; [fuel] bounds the number of
    iterations ([positions_loop_spec] shows the bound is never reached). *)
Fixpoint positions_loop (fuel : nat) (hay needle : str) (i : Z) (acc : list Z) : list Z :=
  match fuel with
  | O => acc
  | S fuel' =>
      let i := Py.find hay needle i in
      if (i =? -1)%Z then acc
      else
        let len := Z.of_nat (length needle) in
        positions_loop fuel' hay needle (i + Z.max 1 len)%Z (acc ++ [(i + len / 2)%Z])
  end.

Definition _positions (hay needle : str) : list Z :=
  positions_loop (length hay + 2) hay needle 0%Z [].

(** [min(abs(apos - tpos) for tpos in target_pos)], for the non-empty
    [tpos0 :: target_pos]. *)
Definition nearest (apos tpos0 : Z) (target_pos : list Z) : Z :=
  fold_left (fun m tpos => Z.min m (Z.abs (apos - tpos))) target_pos (Z.abs (apos - tpos0)).

(** [cand < best] on the pairs [(dist, -desired)] *)
Definition tuple_lt (cand best : Z * Z) : bool :=
  (cand.1 <? best.1)%Z || ((cand.1 =? best.1)%Z && (cand.2 <? best.2)%Z).

(** State of the search: [best] and [best_score]. *)
Definition search_state : Type := option (Z * Z) * option Z.

Definition consider (dist desired : Z) (st : search_state) : search_state :=
  let cand := (dist, (- desired)%Z) in
  match st.1 with
  | None => (Some cand, Some desired)
  | Some best => if tuple_lt cand best then (Some cand, Some desired) else st
  end.

Section Engine.
Context (U : Unicode.UCD).

Definition mentions (terms : list str) (sentence : str) : bool :=
  existsb (fun t => Py.contains t (_normalize U sentence)) terms.

Definition search (s : str) (tpos0 : Z) (target_pos : list Z) : search_state :=
  fold_left
    (fun st desired =>
       fold_left
         (fun st adj =>
            fold_left
              (fun st apos => consider (nearest apos tpos0 target_pos) desired st)
              (_positions s adj) st)
         (ADJ_IDX !!! desired) st)
    [5; 4; 3; 2; 1]%Z (None, None).

Definition _score_for_sentence (sentence : str) (target_terms : list str) : Z :=
  let s := _normalize U sentence in
  if negb (existsb (fun t => Py.contains t s) target_terms) then 3%Z
  else
    let target_pos := flat_map (_positions s) target_terms in
    match target_pos with
    | [] => 3%Z
    | tpos0 :: target_pos' =>
        match (search s tpos0 target_pos').2 with
        | Some best_score => best_score
        | None => 3%Z
        end
    end.

(** ** 1) fetch_restaurant_data *)

Definition spaceless (s : str) : str := Py.replace 32%N [] s.

(** The test of the first matching loop, on normalized names. *)
Definition name_matches (q n : str) : bool :=
  bool_decide (q = n) || Py.contains q n || Py.contains n q
  || Py.contains (spaceless q) (spaceless n).

(** [for name in reviews.keys(): if test(name): chosen_name = name; break] *)
Definition first_key (test : str -> bool) (reviews : list (str * str)) : option str :=
  fst <$> List.find (fun entry => test entry.1) reviews.

(** [reviews[name]] *)
Definition lookup_review (name : str) (reviews : list (str * str)) : option str :=
  snd <$> List.find (fun entry => bool_decide (entry.1 = name)) reviews.

Definition split_step (st : list str * str) (ch : N) : list str * str :=
  let '(sentences, acc) := st in
  let acc := acc ++ [ch] in
  if Py.char_in (py ".!?") ch then
    let frag := Py.strip acc in
    (if bool_decide (frag ≠ []) then sentences ++ [frag] else sentences, [])
  else (sentences, acc).

Definition split_sentences (raw : str) : list str :=
  let '(sentences, acc) := fold_left split_step raw ([], []) in
  let sentences :=
    if bool_decide (Py.strip acc ≠ []) then sentences ++ [Py.strip acc]
    else sentences in
  map (fun s => Py.rstrip (py ".!?") (Py.strip s))
      (filter (fun s => Py.strip s ≠ []) sentences).

(** [fetch_restaurant_data], with the corpus that [_load_reviews] read as
    an argument: the entries of the dict in insertion order. *)
Definition fetch_restaurant_data (reviews : list (str * str)) (restaurant_name : str)
  : option (gmap str (list str)) :=
  let q := _normalize U restaurant_name in
  let chosen_name := first_key (fun name => name_matches q (_normalize U name)) reviews in
  let chosen_name :=
    match chosen_name with
    | None => first_key (fun name => Py.contains q (_normalize U name)) reviews
    | Some _ => chosen_name
    end in
  match chosen_name with
  | None => Some {[ restaurant_name := [] ]}
  | Some chosen_name =>
      raw ← lookup_review chosen_name reviews;
      Some {[ chosen_name := split_sentences raw ]}
  end.

(** ** 2) analyze_reviews *)

(** The scanning loop; it stops ([break]) once both scores are known. *)
Fixpoint scan_reviews (review_sentences : list str) (first_food first_service : option Z)
  : option Z * option Z :=
  match review_sentences with
  | [] => (first_food, first_service)
  | sent :: rest =>
      let first_food :=
        if bool_decide (first_food = None) && mentions FOOD_KW sent
        then Some (_score_for_sentence sent FOOD_KW) else first_food in
      let first_service :=
        if bool_decide (first_service = None) && mentions SERVICE_KW sent
        then Some (_score_for_sentence sent SERVICE_KW) else first_service in
      if bool_decide (first_food ≠ None) && bool_decide (first_service ≠ None)
      then (first_food, first_service)
      else scan_reviews rest first_food first_service
  end.

(** [analyze_reviews]: the returned dict and the lines printed. *)
Definition analyze_reviews (review_sentences : list str)
  : gmap string (list Z) * list string :=
  let '(first_food, first_service) := scan_reviews review_sentences None None in
  let '(first_food, out1) :=
    match first_food with
    | None => (3%Z, ["first_food - NONE"%string])
    | Some f => (f, [])
    end in
  let '(first_service, out2) :=
    match first_service with
    | None => (3%Z, ["first_service - NONE"%string])
    | Some s => (s, [])
    end in
  let food_scores := [] ++ [first_food] in
  let service_scores := [] ++ [first_service] in
  ({[ "food_scores"%string := food_scores;
      "customer_service_scores"%string := service_scores ]},
   out1 ++ out2).

End Engine.

(** ** 3) calculate_overall_score *)

Definition score_term (food_scores customer_service_scores : list Z) (total : float) (i : nat)
  : option float :=
  fi ← food_scores !! i;
  si ← customer_service_scores !! i;
  f ← Py.float_of_int fi;
  s ← Py.float_of_int si;
  root ← Py.math_sqrt s;
  Some (total + PrimFloat.abs f * root)%float.

Definition calculate_overall_score
    (restaurant_name : str) (food_scores customer_service_scores : list Z)
  : option (gmap str float) :=
  if bool_decide (food_scores = []) || bool_decide (customer_service_scores = [])
  then Some {[ restaurant_name := 0%float ]}
  else
    let N := Nat.min (length food_scores) (length customer_service_scores) in
    total ← foldl (fun total i => total ≫= fun t => score_term food_scores customer_service_scores t i)
                  (Some 0%float) (seq 0 N);
    n ← Py.float_of_int (Z.of_nat N);
    let score := (total * 10 / (n * PrimFloat.sqrt 125))%float in
    let score := Py.float_of_fixed3 (Py.format_3f score) in
    Some {[ restaurant_name := score ]}.

(** ** Helpers para lidar com o retorno do Autogen *)

(** [s.strip(chars)] *)
Definition strip_chars (chars s : str) : str :=
  Py.rstrip_by (Py.char_in chars) (Py.lstrip_by (Py.char_in chars) s).

(** [s.split(sep, 1)[-1]] *)
Definition split_last (sep s : str) : str :=
  match split_once sep s with
  | Some (_, rest) => rest
  | None => s
  end.

(** The characters of ["`\n"]. *)
Definition fence_chars : str := py "`" ++ [10%N].

(** [_clean_code_fence] *)
Definition _clean_code_fence (text : str) : str :=
  let cleaned := Py.strip text in
  if Py.startswith cleaned (py "```") || Py.startswith cleaned (py "````")
  then split_last [10%N] (strip_chars fence_chars cleaned)
  else cleaned.

(** * Vocabulary of the statements *)

(** [needle] occurs in [hay] as a substring. *)
Definition occurs_in (needle hay : str) : Prop :=
  ∃ pre suf, hay = pre ++ needle ++ suf.

(** [s] without the characters of the class [ws]. *)
Definition without (ws : N → bool) (s : str) : str :=
  filter (fun c => ws c = false) s.

(** The float that Python reads from a literal with three decimals. *)
Definition literal3 (thousandths : Z) : float :=
  Py.float_of_fixed3 (Py.Fixed3 false thousandths).

(** [needle] occurs in [hay] at offset [i]. *)
Definition occurs_at (hay needle : str) (i : Z) : Prop :=
  ∃ pre suf, hay = pre ++ needle ++ suf ∧ Z.of_nat (length pre) = i.

(** The enumeration in the spec's words: the first occurrence at or after
    [i], then the scan resumes behind it, [max 1 (len needle)] further. *)
Inductive scan_from (hay needle : str) : Z → list Z → Prop :=
| scan_done i :
    (∀ k, (i ≤ k)%Z → ¬ occurs_at hay needle k) →
    scan_from hay needle i []
| scan_match i j rest :
    (i ≤ j)%Z → occurs_at hay needle j →
    (∀ k, (i ≤ k < j)%Z → ¬ occurs_at hay needle k) →
    scan_from hay needle (j + Z.max 1 (Z.of_nat (length needle)))%Z rest →
    scan_from hay needle i (j :: rest).

Definition midpoint (needle : str) (i : Z) : Z :=
  (i + Z.of_nat (length needle) / 2)%Z.

(** [dist] is the distance from [apos] to the nearest target position. *)
Definition distance_to_nearest (target_pos : list Z) (apos dist : Z) : Prop :=
  (∃ tpos, tpos ∈ target_pos ∧ dist = Z.abs (apos - tpos))
  ∧ ∀ tpos, tpos ∈ target_pos → (dist ≤ Z.abs (apos - tpos))%Z.

(** The candidate space of the three loops: every score level, every
    expanded form of the level, every occurrence of the form that the
    enumeration [_positions] collects (the scan skips an occurrence that
    overlaps a collected one), at its distance to the nearest of the target
    positions. *)
Definition candidate (s : str) (target_pos : list Z) (dist level : Z) : Prop :=
  (1 ≤ level ≤ 5)%Z
  ∧ ∃ forms adj apos,
      ADJ_IDX !! level = Some forms ∧ adj ∈ forms ∧ apos ∈ _positions s adj
      ∧ distance_to_nearest target_pos apos dist.

(** The candidates in the order the three nested loops visit them. *)
Definition candidates (s : str) (tpos0 : Z) (target_pos : list Z) : list (Z * Z) :=
  flat_map
    (fun desired =>
       flat_map
         (fun adj => map (fun apos => (nearest apos tpos0 target_pos, desired)) (_positions s adj))
         (ADJ_IDX !!! desired))
    [5; 4; 3; 2; 1]%Z.

(** [(d1, r1)] is at least as good as [(d2, r2)]: nearer, or as near with
    a score at least as high. *)
Definition at_least_as_good (d1 r1 d2 r2 : Z) : Prop :=
  (d1 < d2 ∨ (d1 = d2 ∧ r2 ≤ r1))%Z.

(** The midpoint of some occurrence of some keyword. *)
Definition keyword_midpoint (s : str) (target_terms : list str) (tpos : Z) : Prop :=
  ∃ t j, t ∈ target_terms ∧ occurs_at s t j ∧ tpos = midpoint t j.

(** The candidate space in the spec's words: every score level, every
    expanded form of the level, every occurrence of the form, at its
    distance to the nearest occurrence of a keyword. *)
Definition occurrence_candidate (s : str) (target_terms : list str) (dist level : Z) : Prop :=
  (1 ≤ level ≤ 5)%Z
  ∧ ∃ forms adj i,
      ADJ_IDX !! level = Some forms ∧ adj ∈ forms ∧ occurs_at s adj i
      ∧ (∃ tpos, keyword_midpoint s target_terms tpos ∧ dist = Z.abs (midpoint adj i - tpos))
      ∧ ∀ tpos, keyword_midpoint s target_terms tpos → (dist ≤ Z.abs (midpoint adj i - tpos))%Z.

(** Every offset at which [needle] occurs in [hay], overlaps included. *)
Definition occurrences (hay needle : str) : list Z :=
  map Z.of_nat (filter (fun k => Py.startswith (drop k hay) needle = true) (seq 0 (S (length hay)))).

(** The distance and the level of every pair of an occurrence of an
    adjective form and an occurrence of a keyword. *)
Definition occurrence_distances (s : str) (target_terms : list str) : list (Z * Z) :=
  flat_map
    (fun level =>
       flat_map
         (fun adj =>
            flat_map
              (fun i =>
                 flat_map
                   (fun t => map (fun j => (Z.abs (midpoint adj i - midpoint t j), level))
                                 (occurrences s t))
                   target_terms)
              (occurrences s adj))
         (ADJ_IDX !!! level))
    [5; 4; 3; 2; 1]%Z.

(** What [str.lower] may put in place of the character [c]. *)
Definition lower_images (U : Unicode.UCD) (c : N) : list N :=
  if (c =? Unicode.CAPITAL_SIGMA)%N
  then [Unicode.SMALL_SIGMA; Unicode.SMALL_FINAL_SIGMA]
  else Unicode.tolower_full U c.

(** [d] is left alone by [str.lower] and by the decomposition. *)
Definition stable (U : Unicode.UCD) (d : N) : Prop :=
  Unicode.tolower_full U d = [d] ∧ d ≠ Unicode.CAPITAL_SIGMA
  ∧ Unicode.canonical_decomposition U d = [d].

(** A property of the character database: whatever lower-casing followed
    by decomposition produces, apart from the non-spacing marks, is stable. *)
Definition closed_at (U : Unicode.UCD) (c : N) : Prop :=
  Forall
    (fun e =>
       Forall (fun d => Unicode.category U d ≠ "Mn"%string → stable U d)
              (Unicode.canonical_decomposition U e))
    (lower_images U c).

Definition ucd_closed (U : Unicode.UCD) : Prop := ∀ c, closed_at U c.

(** The number of sentence terminators of a text. *)
Definition terminators (s : str) : nat :=
  length (filter (fun c => Py.char_in (py ".!?") c = true) s).

(** What the segmentation loop keeps true of the text read so far. *)
Definition split_invariant (read : str) (st : list str * str) : Prop :=
  (∃ before, read = before ++ st.2)
  ∧ Forall (fun t => occurs_in t read) st.1
  ∧ length st.1 ≤ terminators read.

(** The number that [calculate_overall_score] stores under the name. *)
Definition overall_value (food_scores customer_service_scores : list Z) : option float :=
  if bool_decide (food_scores = []) || bool_decide (customer_service_scores = [])
  then Some 0%float
  else
    let N := Nat.min (length food_scores) (length customer_service_scores) in
    total ← foldl (fun total i => total ≫= fun t => score_term food_scores customer_service_scores t i)
                  (Some 0%float) (seq 0 N);
    n ← Py.float_of_int (Z.of_nat N);
    Some (Py.float_of_fixed3 (Py.format_3f (total * 10 / (n * PrimFloat.sqrt 125))%float)).

(** A one-pair rating lies between 0.894 and 10.000. *)
Definition rating_in_range (food service : Z) : bool :=
  match overall_value [food] [service] with
  | Some v => PrimFloat.leb (literal3 894) v && PrimFloat.leb v (literal3 10000)
  | None => false
  end.

(** ASCII lower-casing of one character. *)
Definition ascii_lower (c : N) : N :=
  if (65 <=? c)%N && (c <=? 90)%N then (c + 32)%N else c.

(** * Properties *)

(** ** The examples of the docstrings *)

(** [_normalize("Café Satisfatório")] *)
Example normalize_example :
  _normalize Unicode.ucd
    [67; 97; 102; 233; 32; 83; 97; 116; 105; 115; 102; 97; 116; 243; 114; 105; 111]%N
  = py "cafe satisfatorio".
Proof. vm_compute. reflexivity. Qed.

Example expand_examples :
  Forall (fun form => form ∈ _expand_adj_variants (py "bom"))
         [py "bom"; py "boa"; py "bons"; py "boas"]
  ∧ py "agradaveis" ∈ _expand_adj_variants (py "agradavel")
  ∧ Forall (fun form => form ∈ _expand_adj_variants (py "ofensivo"))
           [py "ofensiva"; py "ofensivos"; py "ofensivas"].
Proof. repeat split; apply (bool_decide_unpack _); vm_compute; reflexivity. Qed.

(** [_score_for_sentence('A comida é boa e o ambiente agradável.', FOOD_KW)] *)
Example score_example :
  _score_for_sentence Unicode.ucd
    (py "A comida " ++ [233%N] ++ py " boa e o ambiente agrad" ++ [225%N] ++ py "vel.") FOOD_KW
  = 4%Z.
Proof. vm_compute. reflexivity. Qed.

(** [analyze_reviews(["Comida boa.", "Atendimento satisfatório."])] *)
Example analyze_example :
  analyze_reviews Unicode.ucd
    [py "Comida boa."; py "Atendimento satisfat" ++ [243%N] ++ py "rio."]
  = ({[ "food_scores"%string := [4%Z]; "customer_service_scores"%string := [4%Z] ]}, []).
Proof. vm_compute. reflexivity. Qed.

Example overall_score_empty :
  calculate_overall_score (py "X") [] [4%Z] = Some {[ py "X" := 0%float ]}.
Proof. reflexivity. Qed.

Example segment_unterminated :
  split_sentences (py "Comida boa. Atendimento ruim") = [py "Comida boa"; py "Atendimento ruim"].
Proof. vm_compute. reflexivity. Qed.

(** ** Substrings *)

Lemma startswith_spec (s prefix : str) :
  Py.startswith s prefix = true ↔ ∃ suf, s = prefix ++ suf.
Proof.
  revert s. induction prefix as [|p prefix IH]; intros s; simpl.
  - split; [eauto | done].
  - destruct s as [|c s].
    + split; [done | intros [suf Hs]; discriminate].
    + rewrite andb_true_iff, N.eqb_eq, IH. split.
      * intros [-> [suf ->]]. by exists suf.
      * intros [suf Hs]. injection Hs as -> ->. eauto.
Qed.

Lemma contains_spec (needle hay : str) :
  Py.contains needle hay = true ↔ occurs_in needle hay.
Proof.
  unfold occurs_in. induction hay as [|c hay IH].
  - simpl. rewrite orb_false_r, startswith_spec. split.
    + intros [suf Hs]. by exists [], suf.
    + intros [pre [suf Hs]]. destruct pre; [by exists suf |]. discriminate.
  - cbn [Py.contains]. rewrite orb_true_iff, startswith_spec, IH. split.
    + intros [[suf Hs] | [pre [suf Hs]]].
      * by exists [], suf.
      * exists (c :: pre), suf. by rewrite Hs.
    + intros [pre [suf Hs]]. destruct pre as [|c' pre].
      * left. by exists suf.
      * right. injection Hs as _ Hs. by exists pre, suf.
Qed.

Lemma contains_false (needle hay : str) :
  Py.contains needle hay = false ↔ ¬ occurs_in needle hay.
Proof. rewrite <- contains_spec. by destruct (Py.contains needle hay). Qed.

Lemma existsb_false_Forall {A} (f : A → bool) (l : list A) :
  existsb f l = false ↔ ∀ x, x ∈ l → f x = false.
Proof.
  induction l as [|a l IH]; simpl.
  - split; [intros _ x Hx; by apply elem_of_nil in Hx | done].
  - rewrite orb_false_iff, IH. split.
    + intros [Ha Hl] x Hx. apply elem_of_cons in Hx as [-> | Hx]; auto.
    + intros H. split; [apply H; left | intros x Hx; apply H; by right].
Qed.

(** ** Keywords *)

(** C9: the two keyword lists share no element: no keyword of [FOOD_KW] is
    an element of [SERVICE_KW]. *)
Theorem keyword_sets_disjoint (k : str) :
  k ∈ FOOD_KW → k ∉ SERVICE_KW.
Proof.
  revert k. apply Forall_forall.
  apply (bool_decide_unpack _). vm_compute. reflexivity.
Qed.

Lemma keyword_sets_disjoint_witness :
  py "comida" ∈ FOOD_KW ∧ py "comida" ∉ SERVICE_KW.
Proof.
  assert (H : py "comida" ∈ FOOD_KW) by (apply (bool_decide_unpack _); vm_compute; reflexivity).
  split; [exact H | exact (keyword_sets_disjoint (py "comida") H)].
Defined.

(** ** The sentence scorer without a keyword *)

(** C7: when no target keyword occurs as a substring of the normalized
    sentence, the scorer returns the neutral score 3, whatever the
    sentence, the keyword list and the Unicode tables. *)
Theorem score_neutral_without_keyword
    (U : Unicode.UCD) (sentence : str) (target_terms : list str) :
  (∀ t, t ∈ target_terms → ¬ occurs_in t (_normalize U sentence)) →
  _score_for_sentence U sentence target_terms = 3%Z.
Proof.
  intros Habsent. unfold _score_for_sentence.
  assert (Hnone : existsb (fun t => Py.contains t (_normalize U sentence)) target_terms = false).
  { apply existsb_false_Forall. intros t Ht. apply contains_false. auto. }
  by rewrite Hnone.
Qed.

Lemma score_neutral_without_keyword_witness :
  _score_for_sentence Unicode.ucd (py "O ambiente e incrivel") FOOD_KW = 3%Z.
Proof.
  apply score_neutral_without_keyword.
  intros t Ht. apply contains_false. revert t Ht. apply Forall_forall.
  apply (bool_decide_unpack _). vm_compute. reflexivity.
Defined.

(** ** The review loader *)

Lemma occurs_in_without (ws : N → bool) (a b : str) :
  occurs_in a b → occurs_in (without ws a) (without ws b).
Proof.
  intros [pre [suf ->]]. exists (without ws pre), (without ws suf).
  unfold without. by rewrite !filter_app.
Qed.

Lemma without_spaceless (ws : N → bool) (s : str) :
  ws 32%N = true → without ws (spaceless s) = without ws s.
Proof.
  intros Hws. unfold without, spaceless, Py.replace.
  induction s as [|c s IH]; [done |]. simpl.
  destruct (N.eqb_spec c 32) as [-> | Hc]; simpl.
  - rewrite filter_cons_False; [exact IH | by rewrite Hws].
  - rewrite !filter_cons, IH. done.
Qed.

Lemma first_key_None (test : str → bool) (reviews : list (str * str)) :
  (∀ name review, (name, review) ∈ reviews → test name = false) →
  first_key test reviews = None.
Proof.
  unfold first_key. induction reviews as [|[name review] reviews IH]; intros H; [done |].
  simpl. rewrite (H name review) by left.
  apply IH. intros n r Hin. apply (H n r). by right.
Qed.

(** C6: when no corpus key satisfies any of the four matching rules
    (normalized equality, normalized containment in either direction,
    containment after removing the blanks), [fetch_restaurant_data] returns
    the query name with an empty sentence list and raises nothing. The
    blanks removed may be any character class [ws] that contains the space
    U+0020, the one character the code removes. *)
Theorem fetch_no_match_is_empty
    (U : Unicode.UCD) (ws : N → bool)
    (reviews : list (str * str)) (restaurant_name : str) :
  ws 32%N = true →
  (∀ name review, (name, review) ∈ reviews →
     let q := _normalize U restaurant_name in
     let n := _normalize U name in
     q ≠ n ∧ ¬ occurs_in q n ∧ ¬ occurs_in n q
     ∧ ¬ occurs_in (without ws q) (without ws n)) →
  fetch_restaurant_data U reviews restaurant_name = Some {[ restaurant_name := [] ]}.
Proof.
  intros Hws Hnone. unfold fetch_restaurant_data.
  rewrite first_key_None.
  - rewrite first_key_None; [done |].
    intros name review Hin. destruct (Hnone name review Hin) as (_ & H2 & _).
    by apply contains_false.
  - intros name review Hin. destruct (Hnone name review Hin) as (H1 & H2 & H3 & H4).
    unfold name_matches. rewrite !orb_false_iff. repeat split.
    + by apply bool_decide_eq_false.
    + by apply contains_false.
    + by apply contains_false.
    + apply contains_false. intros Hocc. apply H4.
      apply (occurs_in_without ws) in Hocc. by rewrite !without_spaceless in Hocc.
Qed.

Lemma fetch_no_match_is_empty_witness :
  fetch_restaurant_data Unicode.ucd
    [(py "Bob's", py "Comida boa."); (py "Cafe Central", py "Atendimento ruim.")]
    (py "Pizzaria") = Some {[ py "Pizzaria" := [] ]}.
Proof.
  apply (fetch_no_match_is_empty Unicode.ucd Py.isspace); [reflexivity |].
  intros name review Hin.
  assert (Hname : name ∈ [py "Bob's"; py "Cafe Central"]).
  { apply elem_of_cons in Hin as [Hin | Hin]; [injection Hin as -> _; left |].
    apply elem_of_cons in Hin as [Hin | Hin]; [injection Hin as -> _; right; left |].
    by apply elem_of_nil in Hin. }
  clear Hin. revert name Hname. apply Forall_forall.
  repeat apply Forall_cons_2; [| | apply Forall_nil_2].
  all: cbv zeta; rewrite <- !contains_false; repeat split;
    [ apply (bool_decide_eq_false_1 _) | .. ]; vm_compute; reflexivity.
Defined.

Lemma find_first_entry (test : str → bool) (reviews : list (str * str)) (name : str) :
  first_key test reviews = Some name →
  ∃ review, lookup_review name reviews = Some review.
Proof.
  unfold first_key, lookup_review.
  induction reviews as [|[n r] reviews IH]; simpl; [done |].
  destruct (test n) eqn:Htest; simpl.
  - intros [= <-]. exists r. by rewrite bool_decide_eq_true_2.
  - intros Hfind. destruct (IH Hfind) as [review Hreview].
    destruct (bool_decide (n = name)); simpl; eauto.
Qed.

(** [reviews[chosen_name]] never raises [KeyError]: [fetch_restaurant_data]
    always returns a dict. *)
Lemma fetch_never_raises (U : Unicode.UCD) (reviews : list (str * str)) (restaurant_name : str) :
  ∃ result, fetch_restaurant_data U reviews restaurant_name = Some result.
Proof.
  unfold fetch_restaurant_data.
  destruct (first_key (fun name => name_matches _ _) reviews) as [name|] eqn:Hfirst.
  - destruct (find_first_entry _ _ _ Hfirst) as [review ->]. simpl. eauto.
  - destruct (first_key (fun name => Py.contains _ _) reviews) as [name|] eqn:Hsecond; [| eauto].
    destruct (find_first_entry _ _ _ Hsecond) as [review ->]. simpl. eauto.
Qed.

(** C3 (the code does not do this): for the corpus line
    ["Bob's. Comida boa..."] the returned sentence list contains the empty
    string. Each of the two extra dots is emitted as a fragment ["."], passes
    the filter [if s.strip()], and is emptied by [rstrip(".!?")] afterwards. *)
Theorem fetch_emits_empty_sentence :
  _load_reviews [py "Bob's. Comida boa..."] = [(py "Bob's", py "Comida boa...")]
  ∧ fetch_restaurant_data Unicode.ucd (_load_reviews [py "Bob's. Comida boa..."]) (py "Bob's")
    = Some {[ py "Bob's" := [py "Comida boa"; []; []] ]}.
Proof. split; vm_compute; reflexivity. Qed.

(** ** The aggregator *)

(** For ["Exemplo"], [[3]], [[4]], the example of the docstring, the
    aggregator does not return the 5.366 that the docstring states. *)
Lemma overall_score_example_is_not_5_366 :
  calculate_overall_score (py "Exemplo") [3%Z] [4%Z]
  ≠ Some {[ py "Exemplo" := literal3 5366 ]}.
Proof.
  intros H.
  assert (Hv : calculate_overall_score (py "Exemplo") [3%Z] [4%Z]
               ≫= (fun m => Prim2SF <$> m !! py "Exemplo")
               = Some (Prim2SF (literal3 5366))).
  { rewrite H. simpl. by rewrite lookup_singleton_eq. }
  vm_compute in Hv. discriminate Hv.
Qed.

(** C1: at the docstring's own example, ["Exemplo"], [[3]], [[4]], the
    aggregator returns 5.367 where the docstring states 5.366: the value [total * 10 / (N * sqrt 125)] with [total = |3| * sqrt 4]
    and [N = 1] lies strictly between 5.3665 and 5.3675, so that
    [f"{score:.3f}"] rounds it to 5367 thousandths; 5366 is what truncation
    would give. *)
Theorem overall_score_example_is_5_367 :
  calculate_overall_score (py "Exemplo") [3%Z] [4%Z]
  = Some {[ py "Exemplo" := literal3 5367 ]}
  ∧ (let total := (0 + PrimFloat.abs 3 * PrimFloat.sqrt 4)%float in
     let score := (total * 10 / (1 * PrimFloat.sqrt 125))%float in
     Prim2SF score = S754_finite false 6042212946145891 (-50)
     ∧ (53665 * 2 ^ 50 < 6042212946145891 * 10000 < 53675 * 2 ^ 50)%Z
     ∧ (6042212946145891 * 1000 / 2 ^ 50 = 5366)%Z
     ∧ Py.format_3f score = Py.Fixed3 false 5367).
Proof. vm_compute. repeat split. Qed.

(** ** The lexicon *)

Lemma expand_contains_original (adj : str) :
  adj ∈ _expand_adj_variants adj.
Proof.
  unfold _expand_adj_variants, update.
  repeat case_bool_decide; repeat case_match;
    apply elem_of_elements; set_solver.
Qed.

(** The de-duplication keeps every form of the bucket: forms already seen
    are in [uniq], and the others are appended. *)
Lemma uniq_loop_keeps (bucket : list str) (seen : gset str) (uniq : list str) (x : str) :
  (∀ y, y ∈ seen → y ∈ uniq) →
  x ∈ uniq ∨ x ∈ bucket →
  x ∈ uniq_loop bucket seen uniq.
Proof.
  revert seen uniq. induction bucket as [|b bucket IH]; intros seen uniq Hseen Hx; simpl.
  - destruct Hx as [Hx | Hx]; [done | by apply elem_of_nil in Hx].
  - destruct (decide (b ∈ seen)) as [Hb | Hb].
    + apply IH; [done |]. destruct Hx as [Hx | Hx]; [by left |].
      apply elem_of_cons in Hx as [-> | Hx]; [left; auto | by right].
    + apply IH.
      * intros y Hy. apply elem_of_app.
        apply elem_of_union in Hy as [Hy | Hy]; [right | left; auto].
        apply elem_of_singleton in Hy as ->. left.
      * destruct Hx as [Hx | Hx]; [left; apply elem_of_app; by left |].
        apply elem_of_cons in Hx as [-> | Hx]; [| by right].
        left. apply elem_of_app. right. left.
Qed.

Lemma expand_bucket_keeps_base (adjs : list str) (a : str) :
  a ∈ adjs → a ∈ expand_bucket adjs.
Proof.
  intros Ha. unfold expand_bucket. apply uniq_loop_keeps; [set_solver |].
  right. apply list_elem_of_In, in_flat_map. exists a. split.
  - by apply list_elem_of_In.
  - apply list_elem_of_In, expand_contains_original.
Qed.

(** C8: expansion is lossless. The forms returned by
    [_expand_adj_variants] contain the word itself; hence, for every scale,
    every base adjective is in the bucket that [_build_adj_index] stores
    under its own score; and in [ADJ_IDX] every base adjective of
    [ADJ_SCALE], which is its own normalized form, is in the list of its
    own level. *)
Theorem expansion_is_lossless :
  (∀ adj, adj ∈ _expand_adj_variants adj)
  ∧ (∀ (scale : gmap Z (list str)) score adjs a,
       scale !! score = Some adjs → a ∈ adjs →
       ∃ forms, _build_adj_index scale !! score = Some forms ∧ a ∈ forms)
  ∧ (∀ score adjs a,
       ADJ_SCALE !! score = Some adjs → a ∈ adjs →
       _normalize Unicode.ucd a = a
       ∧ ∃ forms, ADJ_IDX !! score = Some forms ∧ _normalize Unicode.ucd a ∈ forms).
Proof.
  assert (Hbuild : ∀ (scale : gmap Z (list str)) score adjs a,
             scale !! score = Some adjs → a ∈ adjs →
             ∃ forms, _build_adj_index scale !! score = Some forms ∧ a ∈ forms).
  { intros scale score adjs a Hscore Ha. exists (expand_bucket adjs). split.
    - unfold _build_adj_index. by rewrite lookup_fmap, Hscore.
    - by apply expand_bucket_keeps_base. }
  split; [exact expand_contains_original |]. split; [exact Hbuild |].
  intros score adjs a Hscore Ha.
  assert (Hnorm : _normalize Unicode.ucd a = a).
  { assert (Hall : map_Forall (fun _ adjs => Forall (fun a => _normalize Unicode.ucd a = a) adjs)
                     ADJ_SCALE).
    { apply (bool_decide_unpack _). vm_compute. reflexivity. }
    specialize (Hall score adjs Hscore). simpl in Hall.
    by apply (proj1 (Forall_forall _ _) Hall). }
  split; [exact Hnorm |]. rewrite Hnorm. by apply (Hbuild ADJ_SCALE score adjs a).
Qed.

Lemma expansion_is_lossless_witness :
  py "bom" ∈ _expand_adj_variants (py "bom")
  ∧ ∃ forms, ADJ_IDX !! 4%Z = Some forms ∧ _normalize Unicode.ucd (py "bom") ∈ forms.
Proof.
  destruct expansion_is_lossless as (Hexpand & _ & Hidx). split; [apply Hexpand |].
  apply (Hidx 4%Z [py "bom"; py "agradavel"; py "satisfatorio"] (py "bom")).
  - vm_compute. reflexivity.
  - left.
Defined.

(** ** Occurrence enumeration *)

Lemma occurs_at_drop (hay needle : str) (k : nat) :
  occurs_at hay needle (Z.of_nat k)
  ↔ k ≤ length hay ∧ Py.startswith (drop k hay) needle = true.
Proof.
  unfold occurs_at. rewrite startswith_spec. split.
  - intros (pre & suf & -> & Hlen). apply Nat2Z.inj in Hlen as <-. split.
    + rewrite length_app. lia.
    + exists suf. by rewrite drop_app_length.
  - intros [Hk [suf Hs]]. exists (take k hay), suf. split.
    + by rewrite <- Hs, take_drop.
    + rewrite length_take. lia.
Qed.

Lemma find_aux_Some (hay needle : str) (i j : nat) :
  Py.find_aux hay needle i = Some j →
  ∃ k, j = i + k ∧ k ≤ length hay
       ∧ Py.startswith (drop k hay) needle = true
       ∧ ∀ k', k' < k → Py.startswith (drop k' hay) needle = false.
Proof.
  revert i. induction hay as [|c hay IH]; intros i; simpl.
  - destruct (Py.startswith [] needle) eqn:Hs; [| done].
    intros [= <-]. exists 0. repeat split; [lia | done | done | lia].
  - destruct (Py.startswith (c :: hay) needle) eqn:Hs.
    + intros [= <-]. exists 0. repeat split; [lia | lia | done | lia].
    + intros Hf. destruct (IH _ Hf) as (k & -> & Hk & Hocc & Hleast).
      exists (S k). repeat split; [lia | lia | done |].
      intros [|k'] Hk'; [done |]. simpl. apply Hleast. lia.
Qed.

Lemma find_aux_None (hay needle : str) (i : nat) :
  Py.find_aux hay needle i = None →
  ∀ k, Py.startswith (drop k hay) needle = false.
Proof.
  revert i. induction hay as [|c hay IH]; intros i; simpl.
  - destruct (Py.startswith [] needle) eqn:Hs; [done |].
    intros _ k. by rewrite drop_nil.
  - destruct (Py.startswith (c :: hay) needle) eqn:Hs; [done |].
    intros Hf [|k]; [done |]. simpl. by apply (IH _ Hf).
Qed.

(** [str.find] from a non-negative offset: [-1] when there is no
    occurrence at or after [start], the least such occurrence otherwise. *)
Lemma find_spec (hay needle : str) (start : Z) :
  (0 ≤ start)%Z →
  let j := Py.find hay needle start in
  (j = (-1)%Z ∧ ∀ k, (start ≤ k)%Z → ¬ occurs_at hay needle k)
  ∨ ((start ≤ j ≤ Z.of_nat (length hay))%Z ∧ occurs_at hay needle j
     ∧ ∀ k, (start ≤ k < j)%Z → ¬ occurs_at hay needle k).
Proof.
  intros Hstart. unfold Py.find.
  destruct (Z.ltb_spec start 0) as [? | _]; [lia |].
  destruct (Z.ltb_spec (Z.of_nat (length hay)) start) as [Hbig | Hsmall].
  - left. split; [done |]. intros k Hk (pre & suf & -> & Hlen).
    rewrite length_app in Hbig. lia.
  - destruct (Py.find_aux _ _ _) as [j|] eqn:Hf.
    + right. apply find_aux_Some in Hf as (k & -> & Hk & Hocc & Hleast).
      rewrite length_drop in Hk. rewrite drop_drop in Hocc.
      split; [lia |]. split.
      * apply occurs_at_drop. split; [lia | done].
      * intros k' Hk' Hocc'.
        replace k' with (Z.of_nat (Z.to_nat start + (Z.to_nat k' - Z.to_nat start))) in Hocc' by lia.
        apply occurs_at_drop in Hocc' as [_ Hocc'].
        rewrite <- drop_drop, Hleast in Hocc'; [done | lia].
    + left. split; [done |]. intros k Hk Hocc.
      replace k with (Z.of_nat (Z.to_nat start + (Z.to_nat k - Z.to_nat start))) in Hocc by lia.
      apply occurs_at_drop in Hocc as [_ Hocc].
      by rewrite <- drop_drop, (find_aux_None _ _ _ Hf) in Hocc.
Qed.

Lemma positions_loop_acc (fuel : nat) (hay needle : str) (i : Z) (acc : list Z) :
  positions_loop fuel hay needle i acc = acc ++ positions_loop fuel hay needle i [].
Proof.
  revert i acc. induction fuel as [|fuel IH]; intros i acc; simpl.
  - by rewrite app_nil_r.
  - destruct (Z.eqb_spec (Py.find hay needle i) (-1)); [by rewrite app_nil_r |].
    rewrite (IH _ (acc ++ _)), (IH _ [_]). by rewrite app_assoc.
Qed.

(** With enough fuel the loop leaves through its [break], and what it
    collected are the midpoints of the scan. *)
Lemma positions_loop_spec (fuel : nat) (hay needle : str) (i : Z) :
  (0 ≤ i)%Z →
  (Z.max 0 (Z.of_nat (length hay) + 1 - i) < Z.of_nat fuel)%Z →
  ∃ starts, positions_loop fuel hay needle i [] = map (midpoint needle) starts
            ∧ scan_from hay needle i starts.
Proof.
  revert i. induction fuel as [|fuel IH]; intros i Hi Hfuel; [lia |].
  simpl. destruct (find_spec hay needle i Hi) as [[Hj Hnone] | (Hj & Hocc & Hleast)].
  - rewrite Hj. simpl. exists []. split; [done | constructor; exact Hnone].
  - destruct (Z.eqb_spec (Py.find hay needle i) (-1)) as [Heq | _]; [lia |].
    set (j := Py.find hay needle i) in *.
    destruct (IH (j + Z.max 1 (Z.of_nat (length needle)))%Z) as (rest & Hrest & Hscan); [lia | lia |].
    exists (j :: rest). split.
    + rewrite positions_loop_acc, Hrest. done.
    + apply scan_match; assumption || lia.
Qed.

Lemma scan_from_lower_bound (hay needle : str) (i : Z) (starts : list Z) :
  scan_from hay needle i starts →
  Forall (fun j => (i ≤ j)%Z ∧ occurs_at hay needle j) starts.
Proof.
  induction 1 as [| i j rest Hij Hocc Hleast Hscan IH]; [constructor |].
  constructor; [done |]. eapply Forall_impl; [exact IH |].
  intros k [Hk Hoccc]. split; [lia | done].
Qed.

(** Two collected occurrences are at least [max 1 (len needle)] apart. *)
Lemma scan_from_apart (hay needle : str) (i : Z) (starts : list Z) (a b : nat) (p q : Z) :
  scan_from hay needle i starts →
  starts !! a = Some p → starts !! b = Some q → a < b →
  (p + Z.max 1 (Z.of_nat (length needle)) ≤ q)%Z.
Proof.
  intros Hscan. revert a b. induction Hscan as [| i j rest Hij Hocc Hleast Hscan IH];
    intros a b Ha Hb Hab; [done |].
  destruct b as [|b]; [lia |]. destruct a as [|a]; simpl in *.
  - injection Ha as ->. apply scan_from_lower_bound in Hscan.
    apply (proj1 (Forall_lookup _ _) Hscan) in Hb. lia.
  - apply (IH a b); [done | done | lia].
Qed.

Lemma scan_from_deterministic (hay needle : str) (i : Z) (l1 l2 : list Z) :
  scan_from hay needle i l1 → scan_from hay needle i l2 → l1 = l2.
Proof.
  intros H1. revert l2.
  induction H1 as [i Hnone | i j rest Hij Hocc Hleast Hscan IH]; intros l2 H2.
  - destruct H2 as [i _ | i j' rest' Hij' Hocc' _ _]; [done |].
    by destruct (Hnone j' Hij').
  - destruct H2 as [i Hnone | i j' rest' Hij' Hocc' Hleast' Hscan'].
    + by destruct (Hnone j Hij).
    + assert (j = j') as <-.
      { destruct (Z.lt_trichotomy j j') as [Hlt | [Heq | Hgt]]; [| done |].
        - destruct (Hleast' j); [lia | done].
        - destruct (Hleast j'); [lia | done]. }
      f_equal. by apply IH.
Qed.

(** More fuel than [_positions] gives does not change the result. *)
Lemma positions_fuel_irrelevant (fuel : nat) (hay needle : str) :
  length hay + 2 ≤ fuel →
  positions_loop fuel hay needle 0 [] = _positions hay needle.
Proof.
  intros Hfuel. unfold _positions.
  destruct (positions_loop_spec fuel hay needle 0) as (l1 & -> & H1); [lia | lia |].
  destruct (positions_loop_spec (length hay + 2) hay needle 0) as (l2 & -> & H2); [lia | lia |].
  f_equal. by apply (scan_from_deterministic hay needle 0%Z).
Qed.

(** C10: the enumeration collects only non-overlapping occurrences. In
    ["aaaa"] the needle ["aa"] occurs at 0, 1 and 2, and [_positions]
    yields the two midpoints 1 and 3. In general the positions are the
    midpoints of the occurrences found by a scan that, after a match at
    [p], resumes at [p + max 1 (len needle)], which is [p + len needle]
    for every needle but the empty one: two collected occurrences are at
    least [len needle] apart. The keywords and the adjective forms, the
    needles of the scorer, are not empty. *)
Theorem positions_do_not_overlap :
  _positions (py "aaaa") (py "aa") = [1; 3]%Z
  ∧ Forall (occurs_at (py "aaaa") (py "aa")) [0; 1; 2]%Z
  ∧ (∀ hay needle, ∃ starts,
      _positions hay needle = map (midpoint needle) starts
      ∧ scan_from hay needle 0 starts
      ∧ Forall (occurs_at hay needle) starts
      ∧ ∀ (a b : nat) (p q : Z),
          starts !! a = Some p → starts !! b = Some q → a < b →
          (p < q ∧ p + Z.of_nat (length needle) ≤ q)%Z)
  ∧ (∀ needle : str, needle ≠ [] →
       Z.max 1 (Z.of_nat (length needle)) = Z.of_nat (length needle))
  ∧ Forall (fun needle => needle ≠ []) (FOOD_KW ++ SERVICE_KW)
  ∧ map_Forall (fun _ forms => Forall (fun needle : str => needle ≠ []) forms) ADJ_IDX.
Proof.
  split; [vm_compute; reflexivity |]. split.
  { repeat apply Forall_cons_2; [| | | apply Forall_nil_2].
    - by exists [], (py "aa").
    - by exists (py "a"), (py "a").
    - by exists (py "aa"), []. }
  split.
  { intros hay needle. unfold _positions.
    destruct (positions_loop_spec (length hay + 2) hay needle 0) as (starts & Hpos & Hscan);
      [lia | lia |].
    exists starts. split; [done |]. split; [done |]. split.
    - eapply Forall_impl; [exact (scan_from_lower_bound _ _ _ _ Hscan) |]. by intros j [_ Hj].
    - intros a b p q Ha Hb Hab.
      pose proof (scan_from_apart _ _ _ _ a b p q Hscan Ha Hb Hab). lia. }
  split.
  { intros [|c needle] Hne; [done |]. simpl length. lia. }
  split; apply (bool_decide_unpack _); vm_compute; reflexivity.
Qed.

(** ** The search of the sentence scorer *)

Lemma fold_left_flat_map {A B C} (f : A → C → A) (g : B → list C) (l : list B) (a : A) :
  fold_left f (flat_map g l) a = fold_left (fun a x => fold_left f (g x) a) l a.
Proof.
  revert a. induction l as [|x l IH]; intros a; simpl; [done |].
  by rewrite fold_left_app, IH.
Qed.

Lemma fold_left_map {A B C} (f : A → C → A) (g : B → C) (l : list B) (a : A) :
  fold_left f (map g l) a = fold_left (fun a x => f a (g x)) l a.
Proof. revert a. induction l as [|x l IH]; intros a; simpl; [done | by rewrite IH]. Qed.

Lemma fold_left_pointwise {A B} (f g : A → B → A) (l : list B) (a : A) :
  (∀ a x, f a x = g a x) → fold_left f l a = fold_left g l a.
Proof.
  intros Hfg. revert a. induction l as [|x l IH]; intros a; simpl; [done |].
  by rewrite Hfg, IH.
Qed.

(** The three nested loops are one pass over [candidates]. *)
Lemma search_candidates (s : str) (tpos0 : Z) (target_pos : list Z) :
  search s tpos0 target_pos
  = fold_left (fun st c => consider c.1 c.2 st) (candidates s tpos0 target_pos) (None, None).
Proof.
  unfold search, candidates. rewrite fold_left_flat_map.
  apply fold_left_pointwise. intros st desired.
  rewrite fold_left_flat_map. apply fold_left_pointwise. intros st' adj.
  by rewrite fold_left_map.
Qed.

Lemma at_least_as_good_trans (d1 r1 d2 r2 d3 r3 : Z) :
  at_least_as_good d1 r1 d2 r2 → at_least_as_good d2 r2 d3 r3 →
  at_least_as_good d1 r1 d3 r3.
Proof. unfold at_least_as_good. lia. Qed.

(** One pass of [consider] from a first candidate ends on a candidate that
    is at least as good as all of them. *)
Lemma fold_consider_optimal (l : list (Z * Z)) (d r : Z) :
  ∃ d' r',
    fold_left (fun st c => consider c.1 c.2 st) l (Some (d, (- r)%Z), Some r)
    = (Some (d', (- r')%Z), Some r')
    ∧ (d', r') ∈ (d, r) :: l
    ∧ ∀ d2 r2, (d2, r2) ∈ (d, r) :: l → at_least_as_good d' r' d2 r2.
Proof.
  revert d r. induction l as [|[d1 r1] l IH]; intros d r; simpl.
  - exists d, r. split; [done |]. split; [left |].
    intros d2 r2 Hin. apply list_elem_of_singleton in Hin as [= -> ->].
    unfold at_least_as_good. lia.
  - unfold consider at 2. simpl. unfold tuple_lt. simpl.
    destruct ((d1 <? d)%Z || (d1 =? d)%Z && (- r1 <? - r)%Z) eqn:Hlt.
    + destruct (IH d1 r1) as (d' & r' & Hfold & Hin & Hbest).
      exists d', r'. split; [exact Hfold |]. split.
      * right. exact Hin.
      * intros d2 r2 Hin2. apply elem_of_cons in Hin2 as [[= -> ->] | Hin2]; [| by apply Hbest].
        apply (at_least_as_good_trans _ _ d1 r1); [apply Hbest; left |].
        unfold at_least_as_good. lia.
    + destruct (IH d r) as (d' & r' & Hfold & Hin & Hbest).
      exists d', r'. split; [exact Hfold |]. split.
      * apply elem_of_cons in Hin as [Hin | Hin]; [rewrite Hin; left | right; right; exact Hin].
      * intros d2 r2 Hin2. apply elem_of_cons in Hin2 as [Hin2 | Hin2]; [apply Hbest; rewrite Hin2; left |].
        apply elem_of_cons in Hin2 as [[= -> ->] | Hin2]; [| apply Hbest; by right].
        apply (at_least_as_good_trans _ _ d r); [apply Hbest; left |].
        unfold at_least_as_good. lia.
Qed.

(** What the search returns: nothing without a candidate, otherwise the
    score of a candidate that is at least as good as every other. *)
Lemma search_optimal (s : str) (tpos0 : Z) (target_pos : list Z) :
  (candidates s tpos0 target_pos = [] ∧ (search s tpos0 target_pos).2 = None)
  ∨ ∃ d r, (search s tpos0 target_pos).2 = Some r
           ∧ (d, r) ∈ candidates s tpos0 target_pos
           ∧ ∀ d2 r2, (d2, r2) ∈ candidates s tpos0 target_pos → at_least_as_good d r d2 r2.
Proof.
  rewrite search_candidates. destruct (candidates s tpos0 target_pos) as [|[d0 r0] l].
  - left. done.
  - right. simpl. unfold consider at 2. simpl.
    destruct (fold_consider_optimal l d0 r0) as (d & r & -> & Hin & Hbest).
    by exists d, r.
Qed.

Lemma nearest_fold (apos : Z) (target_pos : list Z) (m : Z) :
  let r := fold_left (fun m tpos => Z.min m (Z.abs (apos - tpos))) target_pos m in
  (r ≤ m)%Z
  ∧ (∀ tpos, tpos ∈ target_pos → (r ≤ Z.abs (apos - tpos))%Z)
  ∧ (r = m ∨ ∃ tpos, tpos ∈ target_pos ∧ r = Z.abs (apos - tpos)).
Proof.
  revert m. induction target_pos as [|t target_pos IH]; intros m; simpl.
  - split; [lia |]. split; [| by left]. intros tpos Hin. by apply elem_of_nil in Hin.
  - destruct (IH (Z.min m (Z.abs (apos - t)))) as (Hle & Hall & Hex). split; [lia |]. split.
    + intros tpos Hin. apply elem_of_cons in Hin as [-> | Hin]; [lia | by apply Hall].
    + destruct Hex as [Hex | (tpos & Hin & Hex)].
      * destruct (Z.min_spec m (Z.abs (apos - t))) as [[_ Hm] | [_ Hm]].
        -- left. lia.
        -- right. exists t. split; [left | lia].
      * right. exists tpos. split; [by right | done].
Qed.

Lemma nearest_spec (apos tpos0 : Z) (target_pos : list Z) :
  distance_to_nearest (tpos0 :: target_pos) apos (nearest apos tpos0 target_pos).
Proof.
  unfold distance_to_nearest, nearest.
  destruct (nearest_fold apos target_pos (Z.abs (apos - tpos0))) as (Hle & Hall & Hex).
  split.
  - destruct Hex as [Hex | (tpos & Hin & Hex)].
    + exists tpos0. split; [left | done].
    + exists tpos. split; [by right | done].
  - intros tpos Hin. apply elem_of_cons in Hin as [-> | Hin]; [done | by apply Hall].
Qed.

Lemma distance_to_nearest_unique (target_pos : list Z) (apos d1 d2 : Z) :
  distance_to_nearest target_pos apos d1 → distance_to_nearest target_pos apos d2 → d1 = d2.
Proof.
  intros [(t1 & Hin1 & ->) Hmin1] [(t2 & Hin2 & ->) Hmin2].
  specialize (Hmin1 t2 Hin2). specialize (Hmin2 t1 Hin1). lia.
Qed.

Lemma ADJ_IDX_levels (level : Z) :
  (1 ≤ level ≤ 5)%Z → ADJ_IDX !! level = Some (ADJ_IDX !!! level).
Proof.
  intros Hlevel.
  assert (Hcases : (level = 1 ∨ level = 2 ∨ level = 3 ∨ level = 4 ∨ level = 5)%Z) by lia.
  destruct Hcases as [-> | [-> | [-> | [-> | ->]]]]; vm_compute; reflexivity.
Qed.

(** The list the loops visit is the candidate space. *)
Lemma candidates_spec (s : str) (tpos0 : Z) (target_pos : list Z) (dist level : Z) :
  (dist, level) ∈ candidates s tpos0 target_pos
  ↔ candidate s (tpos0 :: target_pos) dist level.
Proof.
  unfold candidates, candidate. rewrite list_elem_of_In, in_flat_map. split.
  - intros (desired & Hdesired & Hin). apply in_flat_map in Hin as (adj & Hadj & Hin).
    apply in_map_iff in Hin as (apos & [= <- <-] & Hapos).
    assert (Hlevel : (1 ≤ desired ≤ 5)%Z).
    { simpl in Hdesired. lia. }
    split; [exact Hlevel |].
    exists (ADJ_IDX !!! desired), adj, apos. split; [by apply ADJ_IDX_levels |].
    split; [by apply list_elem_of_In |]. split; [by apply list_elem_of_In |].
    apply nearest_spec.
  - intros (Hlevel & forms & adj & apos & Hforms & Hadj & Hapos & Hdist).
    exists level. split; [simpl; lia |].
    rewrite ADJ_IDX_levels in Hforms by done. injection Hforms as <-.
    apply in_flat_map. exists adj. split; [by apply list_elem_of_In |].
    apply in_map_iff. exists apos. split; [| by apply list_elem_of_In].
    f_equal. apply (distance_to_nearest_unique (tpos0 :: target_pos) apos); [apply nearest_spec | done].
Qed.

Lemma positions_nonempty (hay needle : str) :
  occurs_in needle hay → _positions hay needle ≠ [].
Proof.
  intros (pre & suf & Hhay). unfold _positions.
  destruct (positions_loop_spec (length hay + 2) hay needle 0) as (starts & Hpos & Hscan);
    [lia | lia |].
  rewrite Hpos. clear Hpos.
  inversion Hscan as [i Hnone | i j rest _ _ _ _]; subst; [| done].
  exfalso. apply (Hnone (Z.of_nat (length pre))); [lia |]. by exists pre, suf.
Qed.

Lemma target_positions_nonempty (s : str) (target_terms : list str) :
  (∃ t, t ∈ target_terms ∧ occurs_in t s) →
  flat_map (_positions s) target_terms ≠ [].
Proof.
  intros (t & Hin & Hocc) Hnil.
  apply (positions_nonempty s t Hocc).
  destruct (_positions s t) as [|p ps] eqn:Hp; [done |].
  assert (Hpin : In p (flat_map (_positions s) target_terms)).
  { apply in_flat_map. exists t. split; [by apply list_elem_of_In |]. rewrite Hp. by left. }
  rewrite Hnil in Hpin. destruct Hpin.
Qed.

Lemma existsb_true_elem_of {A} (f : A → bool) (l : list A) :
  existsb f l = true ↔ ∃ x, x ∈ l ∧ f x = true.
Proof.
  rewrite existsb_exists. split; intros (x & Hin & Hf); exists x;
    (split; [by apply list_elem_of_In | done]).
Qed.

(** The scorer in terms of the candidate space. *)
Lemma score_for_sentence_optimal (U : Unicode.UCD) (sentence : str) (target_terms : list str) :
  let s := _normalize U sentence in
  let target_pos := flat_map (_positions s) target_terms in
  let score := _score_for_sentence U sentence target_terms in
  (∃ t, t ∈ target_terms ∧ occurs_in t s) →
  ((∀ d l, ¬ candidate s target_pos d l) ∧ score = 3%Z)
  ∨ ∃ d, candidate s target_pos d score
         ∧ ∀ d2 l2, candidate s target_pos d2 l2 → at_least_as_good d score d2 l2.
Proof.
  intros s target_pos score Hkw. subst score. unfold _score_for_sentence. fold s. fold target_pos.
  assert (Hany : existsb (fun t => Py.contains t s) target_terms = true).
  { apply existsb_true_elem_of. destruct Hkw as (t & Hin & Hocc).
    exists t. split; [done | by apply contains_spec]. }
  rewrite Hany. simpl.
  pose proof (target_positions_nonempty s target_terms Hkw) as Hne. fold target_pos in Hne.
  destruct target_pos as [|tpos0 tps]; [done |].
  destruct (search_optimal s tpos0 tps) as [[Hnil ->] | (d & r & -> & Hin & Hbest)].
  - left. split; [| done]. intros d l Hc. apply candidates_spec in Hc.
    rewrite Hnil in Hc. by apply elem_of_nil in Hc.
  - right. exists d. split; [by apply candidates_spec |].
    intros d2 l2 Hc. apply Hbest. by apply candidates_spec.
Qed.

Lemma occurrences_spec (hay needle : str) (i : Z) :
  i ∈ occurrences hay needle ↔ occurs_at hay needle i.
Proof.
  unfold occurrences. rewrite list_elem_of_In, in_map_iff. split.
  - intros (k & <- & Hk). apply list_elem_of_In, list_elem_of_filter in Hk as [Hs Hk].
    apply list_elem_of_In, in_seq in Hk. apply occurs_at_drop. split; [lia | done].
  - intros Hocc. assert (Hi : (0 ≤ i)%Z).
    { destruct Hocc as (pre & suf & _ & <-). lia. }
    exists (Z.to_nat i). split; [lia |].
    rewrite <- (Z2Nat.id i Hi) in Hocc. apply occurs_at_drop in Hocc as [Hk Hs].
    apply list_elem_of_In, list_elem_of_filter. split; [done |].
    apply list_elem_of_In, in_seq. lia.
Qed.

Lemma occurrence_distances_spec (s : str) (target_terms : list str) (d l : Z) :
  (d, l) ∈ occurrence_distances s target_terms
  ↔ (1 ≤ l ≤ 5)%Z
    ∧ ∃ forms adj i tpos,
        ADJ_IDX !! l = Some forms ∧ adj ∈ forms ∧ occurs_at s adj i
        ∧ keyword_midpoint s target_terms tpos ∧ d = Z.abs (midpoint adj i - tpos).
Proof.
  unfold occurrence_distances, keyword_midpoint. rewrite list_elem_of_In, in_flat_map. split.
  - intros (level & Hlevel & Hin).
    apply in_flat_map in Hin as (adj & Hadj & Hin).
    apply in_flat_map in Hin as (i & Hi & Hin).
    apply in_flat_map in Hin as (t & Ht & Hin).
    apply in_map_iff in Hin as (j & [= <- <-] & Hj).
    assert (Hl : (1 ≤ level ≤ 5)%Z).
    { simpl in Hlevel. lia. }
    split; [done |]. exists (ADJ_IDX !!! level), adj, i, (midpoint t j).
    split; [by apply ADJ_IDX_levels |]. split; [by apply list_elem_of_In |].
    split; [by apply occurrences_spec, list_elem_of_In |]. split; [| done].
    exists t, j. split; [by apply list_elem_of_In |].
    split; [by apply occurrences_spec, list_elem_of_In | done].
  - intros (Hl & forms & adj & i & tpos & Hforms & Hadj & Hi & (t & j & Ht & Hj & ->) & ->).
    rewrite (ADJ_IDX_levels l Hl) in Hforms. injection Hforms as <-.
    exists l. split; [simpl; lia |].
    apply in_flat_map. exists adj. split; [by apply list_elem_of_In |].
    apply in_flat_map. exists i. split; [by apply list_elem_of_In, occurrences_spec |].
    apply in_flat_map. exists t. split; [by apply list_elem_of_In |].
    apply in_map_iff. exists j. split; [done |]. by apply list_elem_of_In, occurrences_spec.
Qed.

(** A candidate of the spec's space, from the list of all distances. *)
Lemma occurrence_candidate_spec (s : str) (target_terms : list str) (d l : Z) :
  occurrence_candidate s target_terms d l
  ↔ ∃ forms adj i,
      (1 ≤ l ≤ 5)%Z ∧ ADJ_IDX !! l = Some forms ∧ adj ∈ forms ∧ i ∈ occurrences s adj
      ∧ let ds := flat_map
                    (fun t => map (fun j => Z.abs (midpoint adj i - midpoint t j)) (occurrences s t))
                    target_terms in
        d ∈ ds ∧ Forall (fun d' => (d ≤ d')%Z) ds.
Proof.
  unfold occurrence_candidate, keyword_midpoint. cbv zeta. split.
  - intros (Hl & forms & adj & i & Hforms & Hadj & Hi & (tpos & (t & j & Ht & Hj & ->) & ->) & Hmin).
    exists forms, adj, i. split; [done |]. split; [done |]. split; [done |].
    split; [by apply occurrences_spec |]. split.
    + apply list_elem_of_In, in_flat_map. exists t. split; [by apply list_elem_of_In |].
      apply in_map_iff. exists j. split; [done |]. by apply list_elem_of_In, occurrences_spec.
    + apply Forall_forall. intros d' Hd'.
      apply list_elem_of_In, in_flat_map in Hd' as (t' & Ht' & Hd').
      apply in_map_iff in Hd' as (j' & <- & Hj').
      apply Hmin. exists t', j'. split; [by apply list_elem_of_In |].
      split; [by apply occurrences_spec, list_elem_of_In | done].
  - intros (forms & adj & i & Hl & Hforms & Hadj & Hi & Hd & Hmin).
    split; [done |]. exists forms, adj, i. split; [done |]. split; [done |].
    split; [by apply occurrences_spec |]. split.
    + apply list_elem_of_In, in_flat_map in Hd as (t & Ht & Hd).
      apply in_map_iff in Hd as (j & <- & Hj).
      exists (midpoint t j). split; [| done]. exists t, j. split; [by apply list_elem_of_In |].
      split; [by apply occurrences_spec, list_elem_of_In | done].
    + intros tpos (t & j & Ht & Hj & ->).
      apply (proj1 (Forall_forall _ _) Hmin).
      apply list_elem_of_In, in_flat_map. exists t. split; [by apply list_elem_of_In |].
      apply in_map_iff. exists j. split; [done |]. by apply list_elem_of_In, occurrences_spec.
Qed.

Lemma occurrence_candidate_distance (s : str) (target_terms : list str) (d l : Z) :
  occurrence_candidate s target_terms d l → (d, l) ∈ occurrence_distances s target_terms.
Proof.
  intros (Hl & forms & adj & i & Hforms & Hadj & Hi & (tpos & Hkw & ->) & _).
  apply occurrence_distances_spec. split; [done |]. by exists forms, adj, i, tpos.
Qed.


(** The positions [_positions] returns are the midpoints of the occurrences
    that the scan from offset 0 collects. *)
Lemma positions_scan (hay needle : str) (p : Z) :
  p ∈ _positions hay needle
  ↔ ∃ starts i, scan_from hay needle 0 starts ∧ i ∈ starts ∧ p = midpoint needle i.
Proof.
  unfold _positions.
  destruct (positions_loop_spec (length hay + 2) hay needle 0) as (starts & -> & Hscan);
    [lia | lia |].
  rewrite list_elem_of_In, in_map_iff. split.
  - intros (i & <- & Hi). exists starts, i. split; [done |]. split; [by apply list_elem_of_In | done].
  - intros (starts' & i & Hscan' & Hi & ->).
    rewrite (scan_from_deterministic _ _ _ _ _ Hscan Hscan'). exists i.
    split; [done | by apply list_elem_of_In].
Qed.

(** The candidates of the loops in terms of the scan: a level, one of its
    forms, an occurrence of the form that the scan collects, and its
    distance to the nearest target position. *)
Lemma candidate_scan (s : str) (target_pos : list Z) (dist level : Z) :
  candidate s target_pos dist level
  ↔ (1 ≤ level ≤ 5)%Z
    ∧ ∃ forms adj starts i,
        ADJ_IDX !! level = Some forms ∧ adj ∈ forms
        ∧ scan_from s adj 0 starts ∧ i ∈ starts
        ∧ distance_to_nearest target_pos (midpoint adj i) dist.
Proof.
  unfold candidate. split.
  - intros (Hl & forms & adj & apos & Hforms & Hadj & Hapos & Hd).
    apply positions_scan in Hapos as (starts & i & Hscan & Hi & ->).
    split; [done |]. by exists forms, adj, starts, i.
  - intros (Hl & forms & adj & starts & i & Hforms & Hadj & Hscan & Hi & Hd).
    split; [done |]. exists forms, adj, (midpoint adj i).
    split; [done |]. split; [done |]. split; [| done].
    apply positions_scan. by exists starts, i.
Qed.

(** C2 as stated fails: over every occurrence, overlapping ones included,
    the nearest adjective is not always the one the scorer picks. In
    ["ruim    sopasopas incrivel"] the keyword ["sopas"] occurs at 8 and at
    12 (midpoints 10 and 14), so that ["ruim"] (midpoint 2, level 2) and
    ["incrivel"] (midpoint 22, level 5) are both 8 away from their nearest
    keyword occurrence and the tie would go to level 5; the scorer, whose
    scan skips the occurrence at 12, returns 2. In
    ["ofensivofensivo comida bem incrivel"] the form ["ofensivo"] occurs at
    0 and at 7; the occurrence at 7 is 8 away from ["comida"], nearer than
    ["incrivel"] at 12, and level 2 would win; the scorer, whose scan skips
    it, returns 5. *)
Lemma nearest_over_every_occurrence_fails :
  (let sentence := py "ruim    sopasopas incrivel" in
   let s := _normalize Unicode.ucd sentence in
   let score := _score_for_sentence Unicode.ucd sentence FOOD_KW in
   occurrence_candidate s FOOD_KW 8 2 ∧ occurrence_candidate s FOOD_KW 8 5
   ∧ score = 2%Z
   ∧ ¬ ∃ d0, occurrence_candidate s FOOD_KW d0 score
             ∧ ∀ d l, occurrence_candidate s FOOD_KW d l → at_least_as_good d0 score d l)
  ∧ (let sentence := py "ofensivofensivo comida bem incrivel" in
     let s := _normalize Unicode.ucd sentence in
     let score := _score_for_sentence Unicode.ucd sentence FOOD_KW in
     occurrence_candidate s FOOD_KW 8 2 ∧ occurrence_candidate s FOOD_KW 12 5
     ∧ score = 5%Z
     ∧ ¬ ∃ d0, occurrence_candidate s FOOD_KW d0 score
               ∧ ∀ d l, occurrence_candidate s FOOD_KW d l → at_least_as_good d0 score d l).
Proof.
  assert (Hcand : ∀ s level adj i d,
             (1 ≤ level ≤ 5)%Z → adj ∈ ADJ_IDX !!! level → i ∈ occurrences s adj →
             (let ds := flat_map
                          (fun t => map (fun j => Z.abs (midpoint adj i - midpoint t j))
                                        (occurrences s t))
                          FOOD_KW in
              d ∈ ds ∧ Forall (fun d' => (d ≤ d')%Z) ds) →
             occurrence_candidate s FOOD_KW d level).
  { intros s level adj i d Hlevel Hadj Hi Hd. apply occurrence_candidate_spec.
    exists (ADJ_IDX !!! level), adj, i. split; [done |].
    split; [by apply ADJ_IDX_levels | done]. }
  split; cbv zeta.
  - assert (Hs : _normalize Unicode.ucd (py "ruim    sopasopas incrivel")
                 = py "ruim    sopasopas incrivel") by (vm_compute; reflexivity).
    assert (Hscore : _score_for_sentence Unicode.ucd (py "ruim    sopasopas incrivel") FOOD_KW = 2%Z)
      by (vm_compute; reflexivity).
    rewrite Hs, Hscore.
    assert (H5 : occurrence_candidate (py "ruim    sopasopas incrivel") FOOD_KW 8 5).
    { apply (Hcand _ _ (py "incrivel") 18%Z); [lia | | |];
        cbv zeta; apply (bool_decide_unpack _); vm_compute; reflexivity. }
    split; [| split; [exact H5 | split; [done |]]].
    + apply (Hcand _ _ (py "ruim") 0%Z); [lia | | |];
        cbv zeta; apply (bool_decide_unpack _); vm_compute; reflexivity.
    + intros (d0 & Hc & Hbest). specialize (Hbest _ _ H5).
      apply occurrence_candidate_distance, list_elem_of_In in Hc. vm_compute in Hc.
      unfold at_least_as_good in Hbest.
      destruct Hc as [[=] | [[=] | [[= <-] | [[= <-] | []]]]]; lia.
  - assert (Hs : _normalize Unicode.ucd (py "ofensivofensivo comida bem incrivel")
                 = py "ofensivofensivo comida bem incrivel") by (vm_compute; reflexivity).
    assert (Hscore : _score_for_sentence Unicode.ucd (py "ofensivofensivo comida bem incrivel")
                       FOOD_KW = 5%Z)
      by (vm_compute; reflexivity).
    rewrite Hs, Hscore.
    assert (H2 : occurrence_candidate (py "ofensivofensivo comida bem incrivel") FOOD_KW 8 2).
    { apply (Hcand _ _ (py "ofensivo") 7%Z); [lia | | |];
        cbv zeta; apply (bool_decide_unpack _); vm_compute; reflexivity. }
    split; [exact H2 | split; [| split; [done |]]].
    + apply (Hcand _ _ (py "incrivel") 27%Z); [lia | | |];
        cbv zeta; apply (bool_decide_unpack _); vm_compute; reflexivity.
    + intros (d0 & Hc & Hbest). specialize (Hbest _ _ H2).
      apply occurrence_candidate_distance, list_elem_of_In in Hc. vm_compute in Hc.
      unfold at_least_as_good in Hbest.
      destruct Hc as [[= <-] | [[=] | [[=] | []]]]; lia.
Qed.

(** C2, amended: the score is decided over the whole candidate space of
    the loops (all five levels, all expanded forms, all the occurrences of
    a form that the scan of [_positions] collects, [candidate_scan]): it is
    the level of a candidate of minimum distance to the nearest collected
    keyword occurrence, and among the candidates at that distance of the
    highest level; without a candidate it is 3. In ["mediano comida incrivel"] the adjectives of
    levels 3 and 5 are both at distance 8 from the keyword and the score is
    5; in ["ambiente incrivel mas comida ruim"] the level-5 adjective, which
    a scan from the highest level would find first, loses to the nearer
    level-2 adjective. *)
Theorem nearest_adjective_then_highest_level :
  (∀ (U : Unicode.UCD) (sentence : str) (target_terms : list str),
     let s := _normalize U sentence in
     let target_pos := flat_map (_positions s) target_terms in
     let score := _score_for_sentence U sentence target_terms in
     (∃ t, t ∈ target_terms ∧ occurs_in t s) →
     ((∀ d l, ¬ candidate s target_pos d l) → score = 3%Z)
     ∧ ∀ d l, candidate s target_pos d l →
         ∃ d0, candidate s target_pos d0 score
               ∧ (d0 < d ∨ (d0 = d ∧ l ≤ score))%Z
               ∧ ∀ d2 l2, candidate s target_pos d2 l2 → (d0 < d2 ∨ (d0 = d2 ∧ l2 ≤ score))%Z)
  ∧ (let s := py "mediano comida incrivel" in
     _normalize Unicode.ucd s = s
     ∧ flat_map (_positions s) FOOD_KW = [11%Z]
     ∧ candidate s [11%Z] 8 3 ∧ candidate s [11%Z] 8 5
     ∧ _score_for_sentence Unicode.ucd s FOOD_KW = 5%Z)
  ∧ (let s := py "ambiente incrivel mas comida ruim" in
     _normalize Unicode.ucd s = s
     ∧ flat_map (_positions s) FOOD_KW = [25%Z]
     ∧ candidate s [25%Z] 12 5 ∧ candidate s [25%Z] 6 2
     ∧ _score_for_sentence Unicode.ucd s FOOD_KW = 2%Z).
Proof.
  split.
  { intros U sentence target_terms s target_pos score Hkw.
    destruct (score_for_sentence_optimal U sentence target_terms Hkw)
      as [[Hnone Hscore] | (d0 & Hc0 & Hbest)].
    - split; [done |]. intros d l Hc. by destruct (Hnone d l).
    - split; [intros Hnone; by destruct (Hnone _ _ Hc0) |].
      intros d l Hc. exists d0. split; [exact Hc0 |]. split; [exact (Hbest d l Hc) | exact Hbest]. }
  assert (Hcand : ∀ s tpos level adj apos dist,
             (1 ≤ level ≤ 5)%Z → adj ∈ ADJ_IDX !!! level → apos ∈ _positions s adj →
             dist = Z.abs (apos - tpos) → candidate s [tpos] dist level).
  { intros s tpos level adj apos dist Hlevel Hadj Hapos ->. split; [done |].
    exists (ADJ_IDX !!! level), adj, apos. split; [by apply ADJ_IDX_levels |].
    split; [done |]. split; [done |]. split.
    - exists tpos. split; [left | done].
    - intros t Ht. apply list_elem_of_singleton in Ht as ->. lia. }
  split; cbv zeta.
  - split; [vm_compute; reflexivity |]. split; [vm_compute; reflexivity |]. split; [| split].
    + apply (Hcand _ _ _ (py "mediano") 3%Z); [lia | | | done];
        apply (bool_decide_unpack _); vm_compute; reflexivity.
    + apply (Hcand _ _ _ (py "incrivel") 19%Z); [lia | | | done];
        apply (bool_decide_unpack _); vm_compute; reflexivity.
    + vm_compute. reflexivity.
  - split; [vm_compute; reflexivity |]. split; [vm_compute; reflexivity |]. split; [| split].
    + apply (Hcand _ _ _ (py "incrivel") 13%Z); [lia | | | done];
        apply (bool_decide_unpack _); vm_compute; reflexivity.
    + apply (Hcand _ _ _ (py "ruim") 31%Z); [lia | | | done];
        apply (bool_decide_unpack _); vm_compute; reflexivity.
    + vm_compute. reflexivity.
Qed.

Lemma nearest_adjective_then_highest_level_witness :
  let sentence := py "mediano comida incrivel" in
  let s := _normalize Unicode.ucd sentence in
  let target_pos := flat_map (_positions s) FOOD_KW in
  let score := _score_for_sentence Unicode.ucd sentence FOOD_KW in
  (∃ t, t ∈ FOOD_KW ∧ occurs_in t s)
  ∧ ((∀ d l, ¬ candidate s target_pos d l) → score = 3%Z)
  ∧ ∀ d l, candidate s target_pos d l →
      ∃ d0, candidate s target_pos d0 score
            ∧ (d0 < d ∨ (d0 = d ∧ l ≤ score))%Z
            ∧ ∀ d2 l2, candidate s target_pos d2 l2 → (d0 < d2 ∨ (d0 = d2 ∧ l2 ≤ score))%Z.
Proof.
  assert (Hkw : ∃ t, t ∈ FOOD_KW
                     ∧ occurs_in t (_normalize Unicode.ucd (py "mediano comida incrivel"))).
  { exists (py "comida"). split; [left |]. apply contains_spec. vm_compute. reflexivity. }
  split; [exact Hkw |].
  destruct nearest_adjective_then_highest_level as [Hgeneral _].
  exact (Hgeneral Unicode.ucd (py "mediano comida incrivel") FOOD_KW Hkw).
Defined.

(** ** The dimension analyzer *)

Lemma score_for_sentence_range (U : Unicode.UCD) (sentence : str) (target_terms : list str) :
  (1 ≤ _score_for_sentence U sentence target_terms ≤ 5)%Z.
Proof.
  destruct (existsb (fun t => Py.contains t (_normalize U sentence)) target_terms) eqn:Hany.
  - apply existsb_true_elem_of in Hany as (t & Hin & Hocc). apply contains_spec in Hocc.
    destruct (score_for_sentence_optimal U sentence target_terms) as [[_ ->] | (d & [Hlevel _] & _)];
      [by exists t | lia | exact Hlevel].
  - unfold _score_for_sentence. rewrite Hany. simpl. lia.
Qed.

(** A score is recorded for a dimension only from a sentence that mentions
    one of its keywords. *)
Lemma scan_reviews_spec (U : Unicode.UCD) (review_sentences : list str)
    (first_food first_service : option Z) :
  let result := scan_reviews U review_sentences first_food first_service in
  (result.1 = first_food
   ∨ ∃ sent, sent ∈ review_sentences ∧ mentions U FOOD_KW sent = true
             ∧ result.1 = Some (_score_for_sentence U sent FOOD_KW))
  ∧ (result.2 = first_service
     ∨ ∃ sent, sent ∈ review_sentences ∧ mentions U SERVICE_KW sent = true
               ∧ result.2 = Some (_score_for_sentence U sent SERVICE_KW)).
Proof.
  revert first_food first_service.
  induction review_sentences as [|sent rest IH]; intros first_food first_service;
    cbn [scan_reviews].
  - split; by left.
  - set (ff := if bool_decide (first_food = None) && mentions U FOOD_KW sent
               then Some (_score_for_sentence U sent FOOD_KW) else first_food).
    set (fs := if bool_decide (first_service = None) && mentions U SERVICE_KW sent
               then Some (_score_for_sentence U sent SERVICE_KW) else first_service).
    assert (Hff : ff = first_food
                  ∨ (mentions U FOOD_KW sent = true
                     ∧ ff = Some (_score_for_sentence U sent FOOD_KW))).
    { subst ff. destruct (bool_decide (first_food = None)), (mentions U FOOD_KW sent);
        cbn [andb]; [by right | by left ..]. }
    assert (Hfs : fs = first_service
                  ∨ (mentions U SERVICE_KW sent = true
                     ∧ fs = Some (_score_for_sentence U sent SERVICE_KW))).
    { subst fs. destruct (bool_decide (first_service = None)), (mentions U SERVICE_KW sent);
        cbn [andb]; [by right | by left ..]. }
    clearbody ff fs.
    assert (Hhere :
      (ff = first_food
       ∨ ∃ sent0, sent0 ∈ sent :: rest ∧ mentions U FOOD_KW sent0 = true
                  ∧ ff = Some (_score_for_sentence U sent0 FOOD_KW))
      ∧ (fs = first_service
         ∨ ∃ sent0, sent0 ∈ sent :: rest ∧ mentions U SERVICE_KW sent0 = true
                    ∧ fs = Some (_score_for_sentence U sent0 SERVICE_KW))).
    { split.
      - destruct Hff as [-> | [Hm ->]]; [by left | right; exists sent; split; [left | done]].
      - destruct Hfs as [-> | [Hm ->]]; [by left | right; exists sent; split; [left | done]]. }
    destruct (bool_decide (ff ≠ None) && bool_decide (fs ≠ None)); [exact Hhere |].
    destruct (IH ff fs) as [IHf IHs]. destruct Hhere as [Hf Hs]. split.
    + destruct IHf as [-> | (sent0 & Hin & Hm & ->)]; [exact Hf |].
      right. exists sent0. split; [by right | done].
    + destruct IHs as [-> | (sent0 & Hin & Hm & ->)]; [exact Hs |].
      right. exists sent0. split; [by right | done].
Qed.

Lemma mentions_spec (U : Unicode.UCD) (terms : list str) (sentence : str) :
  mentions U terms sentence = true
  ↔ ∃ k, k ∈ terms ∧ occurs_in k (_normalize U sentence).
Proof.
  unfold mentions. rewrite existsb_true_elem_of.
  split; intros (k & Hin & Hk); exists k; (split; [done | by apply contains_spec]).
Qed.

(** C4: for every sentence list, the returned map holds under
    ["food_scores"] and under ["customer_service_scores"] a list of length
    exactly one, whose element is an integer in 1..5; and a dimension of
    which no sentence contains a keyword gets the neutral value 3. *)
Theorem analyze_reviews_one_score_each (U : Unicode.UCD) (review_sentences : list str) :
  ∃ food service : Z,
    (analyze_reviews U review_sentences).1 !! "food_scores"%string = Some [food]
    ∧ (analyze_reviews U review_sentences).1 !! "customer_service_scores"%string = Some [service]
    ∧ (1 ≤ food ≤ 5)%Z ∧ (1 ≤ service ≤ 5)%Z
    ∧ ((∀ sent k, sent ∈ review_sentences → k ∈ FOOD_KW →
           ¬ occurs_in k (_normalize U sent)) → food = 3%Z)
    ∧ ((∀ sent k, sent ∈ review_sentences → k ∈ SERVICE_KW →
           ¬ occurs_in k (_normalize U sent)) → service = 3%Z).
Proof.
  unfold analyze_reviews.
  pose proof (scan_reviews_spec U review_sentences None None) as [Hfood Hservice].
  destruct (scan_reviews U review_sentences None None) as [first_food first_service].
  cbn [fst snd] in Hfood, Hservice.
  set (food := match first_food with Some f => f | None => 3%Z end).
  set (service := match first_service with Some s => s | None => 3%Z end).
  exists food, service.
  assert (Hmap : ∀ out1 out2 : list string,
            ((let '(first_food0, out1) := (food, out1) in
              let '(first_service0, out2) := (service, out2) in
              ({[ "food_scores"%string := [] ++ [first_food0];
                  "customer_service_scores"%string := [] ++ [first_service0] ]} : gmap string (list Z),
               out1 ++ out2)).1 !! "food_scores"%string = Some [food])
            ∧ ((let '(first_food0, out1) := (food, out1) in
              let '(first_service0, out2) := (service, out2) in
              ({[ "food_scores"%string := [] ++ [first_food0];
                  "customer_service_scores"%string := [] ++ [first_service0] ]} : gmap string (list Z),
               out1 ++ out2)).1 !! "customer_service_scores"%string = Some [service])).
  { intros out1 out2. simpl. split.
    - by rewrite lookup_insert_eq.
    - rewrite lookup_insert_ne by done. by rewrite lookup_singleton_eq. }
  split; [| split].
  - subst food service. destruct first_food, first_service; apply Hmap.
  - subst food service. destruct first_food, first_service; apply Hmap.
  - clear Hmap. split; [| split; [| split]].
    + subst food. destruct Hfood as [-> | (sent & _ & _ & ->)]; [lia |].
      apply score_for_sentence_range.
    + subst service. destruct Hservice as [-> | (sent & _ & _ & ->)]; [lia |].
      apply score_for_sentence_range.
    + intros Hnone. subst food. destruct Hfood as [-> | (sent & Hin & Hm & _)]; [done |].
      apply mentions_spec in Hm as (k & Hk & Hocc). by destruct (Hnone sent k).
    + intros Hnone. subst service. destruct Hservice as [-> | (sent & Hin & Hm & _)]; [done |].
      apply mentions_spec in Hm as (k & Hk & Hocc). by destruct (Hnone sent k).
Qed.

(** ** The normalizer *)

Section NormalizeFacts.
Context (U : Unicode.UCD).

Lemma lower_char_images (before_rev : list N) (c : N) (after : list N) (e : N) :
  e ∈ Unicode.lower_char U before_rev c after → e ∈ lower_images U c.
Proof.
  unfold Unicode.lower_char, lower_images.
  destruct (c =? Unicode.CAPITAL_SIGMA)%N; [| done].
  intros He. apply list_elem_of_singleton in He as ->.
  destruct (Unicode.final_sigma U before_rev after); [right; left | left].
Qed.

Lemma lower_from_images (before_rev s : list N) (e : N) :
  e ∈ Unicode.lower_from U before_rev s → ∃ c, c ∈ s ∧ e ∈ lower_images U c.
Proof.
  revert before_rev. induction s as [|c s IH]; intros before_rev; simpl.
  - intros He. by apply elem_of_nil in He.
  - intros He. apply elem_of_app in He as [He | He].
    + exists c. split; [left | by eapply lower_char_images].
    + destruct (IH _ He) as (c' & Hin & Himg). exists c'. split; [by right | done].
Qed.

Lemma insert_mark_perm (c : N) (rev_out : list N) :
  Unicode.insert_mark U c rev_out ≡ₚ c :: rev_out.
Proof.
  induction rev_out as [|p rest IH]; simpl; [done |].
  destruct (_ || _); [done |]. rewrite IH. apply Permutation_swap.
Qed.

Lemma reorder_fold_perm (s acc : list N) :
  fold_left (Unicode.reorder_step U) s acc ≡ₚ s ++ acc.
Proof.
  revert acc. induction s as [|c s IH]; intros acc; simpl; [done |].
  rewrite IH. unfold Unicode.reorder_step.
  destruct (Unicode.combining U c =? 0)%N.
  - by rewrite Permutation_middle.
  - by rewrite insert_mark_perm, Permutation_middle.
Qed.

(** Canonical ordering only permutes. *)
Lemma canonical_order_perm (s : list N) : Unicode.canonical_order U s ≡ₚ s.
Proof.
  unfold Unicode.canonical_order.
  by rewrite <- Permutation_rev, reorder_fold_perm, app_nil_r.
Qed.

Lemma reorder_fold_starters (s acc : list N) :
  Forall (fun c => Unicode.combining U c = 0%N) s →
  fold_left (Unicode.reorder_step U) s acc = rev s ++ acc.
Proof.
  intros Hs. revert acc. induction Hs as [|c s Hc Hs IH]; intros acc; simpl; [done |].
  rewrite IH. unfold Unicode.reorder_step. rewrite Hc. simpl.
  by rewrite <- app_assoc.
Qed.

(** A string of starters is in canonical order. *)
Lemma canonical_order_starters (s : list N) :
  Forall (fun c => Unicode.combining U c = 0%N) s → Unicode.canonical_order U s = s.
Proof.
  intros Hs. unfold Unicode.canonical_order.
  by rewrite reorder_fold_starters, app_nil_r, rev_involutive.
Qed.

Lemma lower_from_stable (before_rev s : list N) :
  Forall (stable U) s → Unicode.lower_from U before_rev s = s.
Proof.
  intros Hs. revert before_rev.
  induction Hs as [|c s (Hlow & Hsigma & _) Hs IH]; intros before_rev; simpl; [done |].
  unfold Unicode.lower_char. destruct (N.eqb_spec c Unicode.CAPITAL_SIGMA) as [? | _]; [done |].
  by rewrite Hlow, IH.
Qed.

Lemma decompose_stable (s : list N) :
  Forall (stable U) s → Unicode.decompose U s = s.
Proof.
  unfold Unicode.decompose.
  induction 1 as [|c s (_ & _ & Hdec) Hs IH]; simpl; [done |]. by rewrite Hdec, IH.
Qed.

Lemma filter_all {A} (P : A → Prop) `{∀ x, Decision (P x)} (l : list A) :
  Forall P l → filter P l = l.
Proof.
  induction 1 as [|x l Hx Hl IH]; [done |]. by rewrite filter_cons_True, IH.
Qed.

(** The characters of a normalized string are stable, when the database
    is closed. *)
Lemma normalize_stable (x : str) :
  ucd_closed U → Forall (stable U) (_normalize U x).
Proof.
  intros Hclosed. apply Forall_forall. intros d Hd. unfold _normalize in Hd.
  apply list_elem_of_filter in Hd as [HnotMn Hd].
  unfold Unicode.NFD in Hd. rewrite canonical_order_perm in Hd.
  apply list_elem_of_In, in_flat_map in Hd as (e & He & Hd).
  apply list_elem_of_In, lower_from_images in He as (c & _ & He).
  specialize (Hclosed c). unfold closed_at in Hclosed.
  apply (proj1 (Forall_forall _ _)) with (x := e) in Hclosed; [| done].
  apply (proj1 (Forall_forall _ _)) with (x := d) in Hclosed; [| by apply list_elem_of_In].
  by apply Hclosed.
Qed.

End NormalizeFacts.

(** Once normalized, a string without combining characters is a fixed
    point of the normalizer. *)
Lemma normalize_fixed_on_starters (U : Unicode.UCD) (x : str) :
  ucd_closed U →
  Forall (fun c => Unicode.combining U c = 0%N) (_normalize U x) →
  _normalize U (_normalize U x) = _normalize U x.
Proof.
  intros Hclosed Hstarters.
  pose proof (normalize_stable U x Hclosed) as Hstable.
  assert (HnotMn : Forall (fun c => Unicode.category U c ≠ "Mn"%string) (_normalize U x)).
  { apply Forall_forall. intros d Hd. unfold _normalize in Hd.
    by apply list_elem_of_filter in Hd as [HnotMn _]. }
  set (y := _normalize U x) in *.
  unfold _normalize at 1. unfold Unicode.lower, Unicode.NFD.
  rewrite lower_from_stable, decompose_stable, canonical_order_starters by done.
  by apply filter_all.
Qed.

(** C5 as stated fails: with the non-spacing mark U+034F between two
    spacing marks of combining classes 226 and 216, one normalization
    removes U+034F and leaves the two marks out of canonical order; the
    second normalization swaps them. *)
Lemma normalize_is_not_idempotent :
  _normalize Unicode.ucd (_normalize Unicode.ucd [0x1D16D; 0x34F; 0x1D165]%N)
  ≠ _normalize Unicode.ucd [0x1D16D; 0x34F; 0x1D165]%N.
Proof. vm_compute. discriminate. Qed.

(** C5, amended: [_normalize] is idempotent on every string whose
    lower-cased canonical decomposition has no combining character (non-zero
    combining class) outside the category Mn, for every character database
    in which lower-casing and decomposition produce only stable characters
    and non-spacing marks. *)
Theorem normalize_idempotent (U : Unicode.UCD) (x : str) :
  ucd_closed U →
  (∀ c, c ∈ Unicode.NFD U (Unicode.lower U x) →
        Unicode.combining U c ≠ 0%N → Unicode.category U c = "Mn"%string) →
  _normalize U (_normalize U x) = _normalize U x.
Proof.
  intros Hclosed Hmarks. apply normalize_fixed_on_starters; [exact Hclosed |].
  apply Forall_forall. intros d Hd. unfold _normalize in Hd.
  apply list_elem_of_filter in Hd as [HnotMn Hd].
  destruct (N.eq_dec (Unicode.combining U d) 0%N) as [Hz | Hnz]; [exact Hz |].
  destruct (HnotMn (Hmarks d Hd Hnz)).
Qed.

Lemma range_lookup_above {A} (tbl : list (N * N * A)) (bound c : N) :
  Forall (fun entry => (entry.1.2 < bound)%N) tbl → (bound ≤ c)%N →
  Unicode.range_lookup tbl c = None.
Proof.
  intros Htbl Hc. induction Htbl as [|[[lo hi] v] tbl Hhi Htbl IH]; simpl; [done |].
  simpl in Hhi. destruct (N.leb_spec c hi) as [? | _]; [lia |].
  by rewrite andb_false_r.
Qed.

(** The database fragment [Unicode.ucd] is closed: by enumeration below
    U+0400, and above it no character has a lower-case mapping or a
    decomposition. *)
Lemma ucd_fragment_closed : ucd_closed Unicode.ucd.
Proof.
  intros c. destruct (N.lt_ge_cases c 0x400) as [Hlow | Hhigh].
  - assert (Hall : Forall (closed_at Unicode.ucd) (map N.of_nat (seq 0 1024))).
    { unfold closed_at, stable. apply (bool_decide_unpack _). vm_compute. reflexivity. }
    apply (proj1 (Forall_forall _ _) Hall).
    apply list_elem_of_In, in_map_iff. exists (N.to_nat c). split; [lia |].
    apply in_seq. lia.
  - assert (Hlower : Unicode.tolower_full Unicode.ucd c = [c]).
    { change (Unicode.tolower_full Unicode.ucd c)
        with (match Unicode.range_lookup Unicode.lowercase_table c with
              | Some delta => [(c + delta)%N]
              | None => [c]
              end).
      rewrite (range_lookup_above _ 0x400 c); [done | | done].
      apply (bool_decide_unpack _). vm_compute. reflexivity. }
    assert (Hdec : Unicode.canonical_decomposition Unicode.ucd c = [c]).
    { change (Unicode.canonical_decomposition Unicode.ucd c)
        with (default [c] (Unicode.range_lookup Unicode.decomposition_table c)).
      rewrite (range_lookup_above _ 0x400 c); [done | | done].
      apply (bool_decide_unpack _). vm_compute. reflexivity. }
    assert (Hsigma : c ≠ Unicode.CAPITAL_SIGMA).
    { unfold Unicode.CAPITAL_SIGMA. lia. }
    unfold closed_at, lower_images.
    destruct (N.eqb_spec c Unicode.CAPITAL_SIGMA) as [? | _]; [done |].
    rewrite Hlower. apply Forall_singleton. rewrite Hdec. apply Forall_singleton.
    by intros _.
Qed.

(** On the text the corpus is written in (Basic Latin, Latin-1 Supplement
    and the combining diacritical marks) the normalizer is idempotent. *)
Lemma normalize_idempotent_latin (x : str) :
  Forall (fun c => (c < 0x370)%N) x →
  _normalize Unicode.ucd (_normalize Unicode.ucd x) = _normalize Unicode.ucd x.
Proof.
  intros Hx. apply normalize_fixed_on_starters; [exact ucd_fragment_closed |].
  apply Forall_forall. intros d Hd. unfold _normalize in Hd.
  apply list_elem_of_filter in Hd as [HnotMn Hd].
  unfold Unicode.NFD in Hd. rewrite canonical_order_perm in Hd.
  apply list_elem_of_In, in_flat_map in Hd as (e & He & Hd).
  apply list_elem_of_In, lower_from_images in He as (c & Hc & He).
  assert (Hall : Forall
            (fun c => Forall
               (fun e => Forall
                  (fun d => Unicode.category Unicode.ucd d ≠ "Mn"%string →
                            Unicode.combining Unicode.ucd d = 0%N)
                  (Unicode.canonical_decomposition Unicode.ucd e))
               (lower_images Unicode.ucd c))
            (map N.of_nat (seq 0 880))).
  { apply (bool_decide_unpack _). vm_compute. reflexivity. }
  assert (Hrange : c ∈ map N.of_nat (seq 0 880)).
  { apply (proj1 (Forall_forall _ _) Hx) in Hc.
    apply list_elem_of_In, in_map_iff. exists (N.to_nat c). split; [lia |].
    apply in_seq. lia. }
  apply (proj1 (Forall_forall _ _) Hall) in Hrange.
  apply (proj1 (Forall_forall _ _) Hrange) in He.
  apply (proj1 (Forall_forall _ _) He) with (x := d); [by apply list_elem_of_In | done].
Qed.

Lemma normalize_idempotent_witness :
  let x := [67; 97; 102; 233; 32; 83; 97; 116; 105; 115; 102; 97; 116; 243; 114; 105; 111]%N in
  _normalize Unicode.ucd (_normalize Unicode.ucd x) = _normalize Unicode.ucd x.
Proof.
  apply (normalize_idempotent Unicode.ucd); [exact ucd_fragment_closed |].
  apply (proj1 (Forall_forall
    (fun c => Unicode.combining Unicode.ucd c ≠ 0%N → Unicode.category Unicode.ucd c = "Mn"%string) _)).
  apply (bool_decide_unpack _). vm_compute. reflexivity.
Defined.

(** * Further properties *)

(** ** Stripping and segmentation *)

Lemma lstrip_by_split (P : N → bool) (s : str) :
  ∃ dropped, s = dropped ++ Py.lstrip_by P s ∧ Forall (fun c => P c = true) dropped.
Proof.
  induction s as [|c s (dropped & Hs & Hdropped)]; simpl.
  - by exists [].
  - destruct (P c) eqn:Hc.
    + exists (c :: dropped). split; [by rewrite Hs at 1 | by constructor].
    + by exists [].
Qed.

Lemma lstrip_by_head (P : N → bool) (s : str) (c : N) (rest : str) :
  Py.lstrip_by P s = c :: rest → P c = false.
Proof.
  induction s as [|a s IH]; simpl; [done |].
  destruct (P a) eqn:Ha; [exact IH |]. by intros [= <- _].
Qed.

Lemma lstrip_by_id (P : N → bool) (s : str) :
  (∀ c rest, s = c :: rest → P c = false) → Py.lstrip_by P s = s.
Proof.
  destruct s as [|c s]; [done |]. intros H. simpl. by rewrite (H c s).
Qed.

Lemma rstrip_by_split (P : N → bool) (s : str) :
  ∃ dropped, s = Py.rstrip_by P s ++ dropped ∧ Forall (fun c => P c = true) dropped.
Proof.
  unfold Py.rstrip_by. destruct (lstrip_by_split P (rev s)) as (dropped & Hs & Hdropped).
  exists (rev dropped). split.
  - rewrite <- rev_app_distr, <- Hs. by rewrite rev_involutive.
  - apply Forall_forall. intros c Hc. apply list_elem_of_In, in_rev, list_elem_of_In in Hc.
    by apply (proj1 (Forall_forall _ _) Hdropped).
Qed.

Lemma rstrip_by_last (P : N → bool) (s front : str) (c : N) :
  Py.rstrip_by P s = front ++ [c] → P c = false.
Proof.
  unfold Py.rstrip_by. intros H. apply (f_equal (@rev N)) in H.
  rewrite rev_involutive, rev_app_distr in H. simpl in H.
  by apply lstrip_by_head in H.
Qed.

Lemma rstrip_by_id (P : N → bool) (s : str) :
  (∀ front c, s = front ++ [c] → P c = false) → Py.rstrip_by P s = s.
Proof.
  intros H. unfold Py.rstrip_by. rewrite lstrip_by_id; [apply rev_involutive |].
  intros c rest Hrev. apply (H (rev rest) c).
  apply (f_equal (@rev N)) in Hrev. by rewrite rev_involutive in Hrev.
Qed.

(** Stripping on the right keeps the first character. *)
Lemma rstrip_by_head (P Q : N → bool) (s : str) :
  (∀ c rest, s = c :: rest → Q c = false) →
  ∀ c rest, Py.rstrip_by P s = c :: rest → Q c = false.
Proof.
  intros Hs c rest Hr. destruct (rstrip_by_split P s) as (dropped & Hsplit & _).
  rewrite Hr in Hsplit. by apply (Hs c (rest ++ dropped)).
Qed.

Lemma strip_head (s : str) (c : N) (rest : str) :
  Py.strip s = c :: rest → Py.isspace c = false.
Proof.
  unfold Py.strip. apply rstrip_by_head. intros a r. apply lstrip_by_head.
Qed.

Lemma strip_last (s front : str) (c : N) :
  Py.strip s = front ++ [c] → Py.isspace c = false.
Proof. apply rstrip_by_last. Qed.

Lemma strip_id (s : str) :
  (∀ c rest, s = c :: rest → Py.isspace c = false) →
  (∀ front c, s = front ++ [c] → Py.isspace c = false) →
  Py.strip s = s.
Proof.
  intros Hhead Hlast. unfold Py.strip. by rewrite lstrip_by_id, rstrip_by_id.
Qed.

Lemma strip_idempotent (s : str) : Py.strip (Py.strip s) = Py.strip s.
Proof. apply strip_id; [apply strip_head | apply strip_last]. Qed.

Lemma occurs_in_refl (s : str) : occurs_in s s.
Proof. exists [], []. by rewrite app_nil_r. Qed.

Lemma occurs_in_trans (a b c : str) : occurs_in a b → occurs_in b c → occurs_in a c.
Proof.
  intros (p1 & s1 & ->) (p2 & s2 & ->). exists (p2 ++ p1), (s1 ++ s2).
  by rewrite <- !app_assoc.
Qed.

Lemma lstrip_by_occurs (P : N → bool) (s : str) : occurs_in (Py.lstrip_by P s) s.
Proof.
  destruct (lstrip_by_split P s) as (dropped & Hs & _). exists dropped, [].
  by rewrite app_nil_r.
Qed.

Lemma rstrip_by_occurs (P : N → bool) (s : str) : occurs_in (Py.rstrip_by P s) s.
Proof. destruct (rstrip_by_split P s) as (dropped & Hs & _). by exists [], dropped. Qed.

Lemma strip_occurs (s : str) : occurs_in (Py.strip s) s.
Proof.
  unfold Py.strip. eapply occurs_in_trans; [apply rstrip_by_occurs | apply lstrip_by_occurs].
Qed.

Lemma occurs_in_elem (a b : str) (c : N) : occurs_in a b → c ∈ a → c ∈ b.
Proof. intros (pre & suf & ->) Hc. rewrite !elem_of_app. auto. Qed.

Lemma terminators_snoc (s : str) (ch : N) :
  terminators (s ++ [ch])
  = terminators s + (if Py.char_in (py ".!?") ch then 1 else 0).
Proof.
  unfold terminators. rewrite filter_app, length_app. f_equal.
  destruct (Py.char_in (py ".!?") ch) eqn:Hch.
  - by rewrite filter_cons_True.
  - rewrite filter_cons_False; [done | by rewrite Hch].
Qed.

Lemma split_step_invariant (read : str) (st : list str * str) (ch : N) :
  split_invariant read st → split_invariant (read ++ [ch]) (split_step st ch).
Proof.
  destruct st as [sentences acc]. intros ((before & Hread) & Hocc & Hlen). cbn [fst snd] in *.
  assert (Hocc' : Forall (fun t => occurs_in t (read ++ [ch])) sentences).
  { eapply Forall_impl; [exact Hocc |]. intros t (p & s & ->). exists p, (s ++ [ch]).
    by rewrite <- !app_assoc. }
  assert (Hacc : occurs_in (acc ++ [ch]) (read ++ [ch])).
  { exists before, []. by rewrite Hread, app_nil_r, <- app_assoc. }
  unfold split_step, split_invariant. rewrite terminators_snoc.
  destruct (Py.char_in (py ".!?") ch); cbn [fst snd].
  - split; [exists (read ++ [ch]); by rewrite app_nil_r |].
    case_bool_decide.
    + split; [| rewrite length_app; simpl; lia].
      apply Forall_app. split; [done |]. apply Forall_singleton.
      eapply occurs_in_trans; [apply strip_occurs | done].
    + split; [done | lia].
  - split; [exists before; by rewrite Hread, <- app_assoc |]. split; [done | lia].
Qed.

Lemma split_fold_invariant (raw read : str) (st : list str * str) :
  split_invariant read st → split_invariant (read ++ raw) (fold_left split_step raw st).
Proof.
  revert read st. induction raw as [|ch raw IH]; intros read st Hinv; simpl.
  - by rewrite app_nil_r.
  - replace (read ++ ch :: raw) with ((read ++ [ch]) ++ raw) by by rewrite <- app_assoc.
    apply IH. by apply split_step_invariant.
Qed.

(** Every returned sentence comes from a fragment of the text. *)
Lemma split_sentences_origin (raw t : str) :
  t ∈ split_sentences raw →
  ∃ frag, occurs_in frag raw ∧ t = Py.rstrip (py ".!?") (Py.strip frag).
Proof.
  unfold split_sentences.
  pose proof (split_fold_invariant raw [] ([], [])) as Hinv. simpl in Hinv.
  destruct (fold_left split_step raw ([], [])) as [sentences acc].
  destruct Hinv as ((before & Hraw) & Hocc & _).
  { repeat split; [by exists [] | constructor | simpl; lia]. }
  simpl in *. intros Ht. apply list_elem_of_In, in_map_iff in Ht as (frag & <- & Hfrag).
  apply list_elem_of_In, list_elem_of_filter in Hfrag as [_ Hfrag].
  exists frag. split; [| done].
  case_bool_decide.
  - apply elem_of_app in Hfrag as [Hfrag | Hfrag].
    + by apply (proj1 (Forall_forall _ _) Hocc).
    + apply list_elem_of_singleton in Hfrag as ->.
      eapply occurs_in_trans; [apply strip_occurs |]. exists before, []. by rewrite app_nil_r.
  - by apply (proj1 (Forall_forall _ _) Hocc).
Qed.

(** X1: every sentence returned by the segmentation is a contiguous piece
    of the review text, carries no leading blank and no trailing ['.'],
    ['!'] or ['?'], and there is at most one sentence per terminator of the
    text, plus one for an unterminated tail. *)
Theorem split_sentences_shape (raw : str) :
  (∀ t, t ∈ split_sentences raw →
     occurs_in t raw
     ∧ (∀ c rest, t = c :: rest → Py.isspace c = false)
     ∧ (∀ front c, t = front ++ [c] → Py.char_in (py ".!?") c = false))
  ∧ length (split_sentences raw) ≤ S (terminators raw).
Proof.
  split.
  - intros t Ht. destruct (split_sentences_origin raw t Ht) as (frag & Hfrag & ->).
    split; [| split].
    + eapply occurs_in_trans; [apply rstrip_by_occurs |].
      eapply occurs_in_trans; [apply strip_occurs | exact Hfrag].
    + apply rstrip_by_head. intros c rest. apply strip_head.
    + intros front c. apply rstrip_by_last.
  - unfold split_sentences.
    pose proof (split_fold_invariant raw [] ([], [])) as Hinv. simpl in Hinv.
    destruct (fold_left split_step raw ([], [])) as [sentences acc].
    destruct Hinv as (_ & _ & Hlen).
    { repeat split; [by exists [] | constructor | simpl; lia]. }
    simpl in Hlen. rewrite length_map.
    etransitivity; [apply length_filter |].
    case_bool_decide; [rewrite length_app; simpl; lia | lia].
Qed.

Lemma split_fold_plain (raw : str) (sentences : list str) (acc : str) :
  (∀ c, c ∈ raw → Py.char_in (py ".!?") c = false) →
  fold_left split_step raw (sentences, acc) = (sentences, acc ++ raw).
Proof.
  revert acc. induction raw as [|ch raw IH]; intros acc Hraw; cbn [fold_left].
  - by rewrite app_nil_r.
  - unfold split_step at 2. rewrite (Hraw ch) by left.
    rewrite IH; [by rewrite <- app_assoc |].
    intros c Hc. apply Hraw. by right.
Qed.

(** X2: a review without ['.'], ['!'] or ['?'] is one sentence, its
    trimmed text; a blank review has no sentence. *)
Theorem split_sentences_without_terminator (raw : str) :
  (∀ c, c ∈ raw → Py.char_in (py ".!?") c = false) →
  split_sentences raw = if bool_decide (Py.strip raw = []) then [] else [Py.strip raw].
Proof.
  intros Hraw. unfold split_sentences. rewrite split_fold_plain by done. cbn [app].
  destruct (decide (Py.strip raw = [])) as [Hblank | Hblank].
  - rewrite (bool_decide_eq_true_2 _ Hblank).
    rewrite bool_decide_eq_false_2 by (by intros H; apply H). done.
  - rewrite (bool_decide_eq_false_2 _ Hblank).
    rewrite bool_decide_eq_true_2 by done. cbn [app].
    rewrite filter_cons_True by (by rewrite strip_idempotent). simpl.
    rewrite strip_idempotent. f_equal. apply rstrip_by_id.
    intros front c Hlast. apply Hraw.
    apply (occurs_in_elem (Py.strip raw)); [apply strip_occurs |].
    rewrite Hlast. apply elem_of_app. right. left.
Qed.

Lemma split_sentences_without_terminator_witness :
  split_sentences (py "  Comida boa  ") = [py "Comida boa"].
Proof.
  rewrite split_sentences_without_terminator.
  - vm_compute. reflexivity.
  - apply Forall_forall. apply (bool_decide_unpack _). vm_compute. reflexivity.
Defined.

(** ** Matching a restaurant name *)

(** The review stored under the first key that passes a test on keys. *)
Lemma lookup_review_of_find (test : str → bool) (reviews : list (str * str)) (name review : str) :
  List.find (fun entry => test entry.1) reviews = Some (name, review) →
  lookup_review name reviews = Some review.
Proof.
  unfold lookup_review. induction reviews as [|[n r] reviews IH]; simpl; [done |].
  destruct (test n) eqn:Htest.
  - intros [= -> ->]. by rewrite bool_decide_eq_true_2.
  - intros Hfind. case_bool_decide as Hn; [| by apply IH].
    subst n. apply find_some in Hfind as [_ Hname]. simpl in Hname. congruence.
Qed.

(** The second loop of [fetch_restaurant_data] repeats a test the first
    loop has made: the outcome is decided by the first loop alone. *)
Lemma fetch_of_find (U : Unicode.UCD) (reviews : list (str * str)) (restaurant_name : str) :
  fetch_restaurant_data U reviews restaurant_name
  = match List.find
            (fun entry => name_matches (_normalize U restaurant_name) (_normalize U entry.1))
            reviews with
    | Some (name, review) => Some {[ name := split_sentences review ]}
    | None => Some {[ restaurant_name := [] ]}
    end.
Proof.
  unfold fetch_restaurant_data, first_key.
  destruct (List.find (fun entry => name_matches _ (_normalize U entry.1)) reviews)
    as [[name review]|] eqn:Hfind; simpl.
  - by rewrite (lookup_review_of_find
                  (fun n => name_matches (_normalize U restaurant_name) (_normalize U n))
                  _ _ _ Hfind).
  - destruct (List.find (fun entry => Py.contains _ (_normalize U entry.1)) reviews)
      as [[name review]|] eqn:Hsecond; simpl; [| done].
    apply find_some in Hsecond as [Hin Hcontains].
    apply (find_none _ _ Hfind) in Hin. unfold name_matches in Hin. simpl in *.
    rewrite Hcontains in Hin. by rewrite orb_true_r in Hin.
Qed.

(** X3: first match wins. When a corpus key passes one of the four rules
    and no earlier key does, the result is that key (as spelled in the
    corpus) with the segmentation of its review, whatever follows in the
    corpus. *)
Theorem fetch_first_match_wins
    (U : Unicode.UCD) (earlier later : list (str * str)) (name review restaurant_name : str) :
  (∀ entry, entry ∈ earlier →
     name_matches (_normalize U restaurant_name) (_normalize U entry.1) = false) →
  name_matches (_normalize U restaurant_name) (_normalize U name) = true →
  fetch_restaurant_data U (earlier ++ (name, review) :: later) restaurant_name
  = Some {[ name := split_sentences review ]}.
Proof.
  intros Hearlier Hname. rewrite fetch_of_find.
  assert (Hfind : List.find
            (fun entry => name_matches (_normalize U restaurant_name) (_normalize U entry.1))
            (earlier ++ (name, review) :: later) = Some (name, review)).
  { induction earlier as [|e earlier IH]; simpl.
    - by rewrite Hname.
    - rewrite (Hearlier e) by left. apply IH. intros entry Hin. apply Hearlier. by right. }
  by rewrite Hfind.
Qed.

Lemma fetch_first_match_wins_witness :
  fetch_restaurant_data Unicode.ucd
    [(py "Bob's", py "Comida boa."); (py "Cafe Central", py "Atendimento ruim. Cafe bom");
     (py "Cafe do Centro", py "Comida ruim.")]
    (py "CAFE")
  = Some {[ py "Cafe Central" := split_sentences (py "Atendimento ruim. Cafe bom") ]}.
Proof.
  apply (fetch_first_match_wins Unicode.ucd [(py "Bob's", py "Comida boa.")]).
  - apply Forall_forall. apply (bool_decide_unpack _). vm_compute. reflexivity.
  - vm_compute. reflexivity.
Defined.

(** X4: a query whose normalized form is empty (the empty string, or
    non-spacing marks only) is contained in every name: the first corpus
    entry is returned for it. *)
Theorem fetch_empty_query_takes_first_entry
    (U : Unicode.UCD) (name review : str) (rest : list (str * str)) (restaurant_name : str) :
  _normalize U restaurant_name = [] →
  fetch_restaurant_data U ((name, review) :: rest) restaurant_name
  = Some {[ name := split_sentences review ]}.
Proof.
  intros Hempty. rewrite fetch_of_find. simpl. rewrite Hempty.
  assert (Hmatch : name_matches [] (_normalize U name) = true).
  { unfold name_matches.
    assert (Hnil : Py.contains [] (_normalize U name) = true) by by destruct (_normalize U name).
    rewrite Hnil. by rewrite orb_true_r. }
  by rewrite Hmatch.
Qed.

Lemma fetch_empty_query_takes_first_entry_witness :
  fetch_restaurant_data Unicode.ucd
    [(py "Bob's", py "Comida boa."); (py "Cafe Central", py "Atendimento ruim.")] []
  = Some {[ py "Bob's" := split_sentences (py "Comida boa.") ]}.
Proof. by apply fetch_empty_query_takes_first_entry. Defined.

(** ** More on the occurrence enumeration *)

Lemma scan_from_covers (hay needle : str) (i : Z) (starts : list Z) (k : Z) :
  scan_from hay needle i starts → (i ≤ k)%Z → occurs_at hay needle k →
  ∃ p, p ∈ starts ∧ (p ≤ k < p + Z.max 1 (Z.of_nat (length needle)))%Z.
Proof.
  induction 1 as [i Hnone | i j rest Hij Hocc Hleast Hscan IH]; intros Hk Hoccurs.
  - by destruct (Hnone k Hk).
  - destruct (Z.lt_ge_cases k (j + Z.max 1 (Z.of_nat (length needle)))) as [Hnear | Hfar].
    + exists j. split; [left |]. split; [| done].
      destruct (Z.lt_ge_cases k j) as [Hlt | Hge]; [| done].
      destruct (Hleast k); [lia | done].
    + destruct (IH Hfar Hoccurs) as (p & Hp & Hrange). exists p. split; [by right | done].
Qed.

(** X5: no occurrence is lost except to an overlap. Every occurrence of
    the needle starts at a collected occurrence or inside one (less than
    [max 1 (len needle)] behind its start); the positions returned are the
    midpoints [p + len needle / 2] of the collected occurrences. *)
Theorem positions_cover_every_occurrence (hay needle : str) (k : Z) :
  occurs_at hay needle k →
  ∃ p, midpoint needle p ∈ _positions hay needle
       ∧ occurs_at hay needle p
       ∧ (p ≤ k < p + Z.max 1 (Z.of_nat (length needle)))%Z.
Proof.
  intros Hocc. unfold _positions.
  destruct (positions_loop_spec (length hay + 2) hay needle 0) as (starts & -> & Hscan);
    [lia | lia |].
  assert (Hk : (0 ≤ k)%Z) by (destruct Hocc as (pre & suf & _ & <-); lia).
  destruct (scan_from_covers hay needle 0 starts k Hscan Hk Hocc) as (p & Hp & Hrange).
  exists p. split; [| split; [| done]].
  - apply list_elem_of_In, in_map, list_elem_of_In, Hp.
  - apply scan_from_lower_bound in Hscan.
    by apply (proj1 (Forall_forall _ _) Hscan) in Hp as [_ Hp].
Qed.

Lemma positions_cover_every_occurrence_witness :
  ∃ p, midpoint (py "aa") p ∈ _positions (py "aaaa") (py "aa")
       ∧ occurs_at (py "aaaa") (py "aa") p
       ∧ (p ≤ 1 < p + Z.max 1 (Z.of_nat (length (py "aa"))))%Z.
Proof.
  apply positions_cover_every_occurrence. by exists (py "a"), (py "a").
Defined.

Lemma occurs_at_occurs_in (hay needle : str) (k : Z) :
  occurs_at hay needle k → occurs_in needle hay.
Proof. intros (pre & suf & Hhay & _). by exists pre, suf. Qed.

(** X6: [_positions] is empty exactly when the needle is not a substring
    ([needle in hay] is false). Hence in [_score_for_sentence] the list
    [target_pos] is never empty once the first guard has passed: the
    second guard, [if not target_pos: return 3], cannot fire. *)
Theorem positions_empty_iff_absent :
  (∀ hay needle, _positions hay needle = [] ↔ Py.contains needle hay = false)
  ∧ (∀ s target_terms,
       existsb (fun t => Py.contains t s) target_terms = true →
       flat_map (_positions s) target_terms ≠ []).
Proof.
  split.
  - intros hay needle. rewrite contains_false. split.
    + intros Hnil Hocc. by apply (positions_nonempty hay needle Hocc).
    + intros Habsent. unfold _positions.
      destruct (positions_loop_spec (length hay + 2) hay needle 0) as (starts & -> & Hscan);
        [lia | lia |].
      destruct starts as [|p starts]; [done |]. exfalso. apply Habsent.
      apply scan_from_lower_bound, Forall_cons in Hscan as [[_ Hp] _].
      by apply (occurs_at_occurs_in hay needle p).
  - intros s target_terms Hany. apply target_positions_nonempty.
    apply existsb_true_elem_of in Hany as (t & Hin & Ht).
    exists t. split; [done | by apply contains_spec].
Qed.

(** ** The scorer and its keyword list *)

Lemma candidate_target_ext (s : str) (tp tp' : list Z) (d l : Z) :
  (∀ t, t ∈ tp ↔ t ∈ tp') → candidate s tp d l → candidate s tp' d l.
Proof.
  intros Hext (Hlevel & forms & adj & apos & Hforms & Hadj & Hapos & (t & Ht & Hd) & Hmin).
  split; [done |]. exists forms, adj, apos. repeat split; try done.
  - exists t. split; [by apply Hext | done].
  - intros t' Ht'. apply Hmin. by apply Hext.
Qed.

Lemma flat_map_elem_ext {A B} (f : A → list B) (l l' : list A) :
  (∀ x, x ∈ l ↔ x ∈ l') → ∀ y, y ∈ flat_map f l ↔ y ∈ flat_map f l'.
Proof.
  intros Hext y. rewrite !list_elem_of_In, !in_flat_map.
  split; intros (x & Hx & Hy); exists x; (split; [| done]);
    apply list_elem_of_In, Hext, list_elem_of_In, Hx.
Qed.

(** X7: the score depends on the keyword list only as a set: two lists
    with the same elements, in any order and with any repetitions, give the
    same score for every sentence. *)
Theorem score_ignores_keyword_order
    (U : Unicode.UCD) (sentence : str) (target_terms target_terms' : list str) :
  (∀ t, t ∈ target_terms ↔ t ∈ target_terms') →
  _score_for_sentence U sentence target_terms = _score_for_sentence U sentence target_terms'.
Proof.
  intros Hext.
  pose proof (flat_map_elem_ext (_positions (_normalize U sentence)) _ _ Hext) as Hpos.
  destruct (existsb (fun t => Py.contains t (_normalize U sentence)) target_terms) eqn:Hany.
  - apply existsb_true_elem_of in Hany as (t & Hin & Ht). apply contains_spec in Ht.
    assert (Hkw : ∃ t, t ∈ target_terms ∧ occurs_in t (_normalize U sentence)) by eauto.
    assert (Hkw' : ∃ t, t ∈ target_terms' ∧ occurs_in t (_normalize U sentence)).
    { exists t. split; [by apply Hext | done]. }
    destruct (score_for_sentence_optimal U sentence target_terms Hkw)
      as [[Hnone ->] | (d & Hc & Hbest)];
      destruct (score_for_sentence_optimal U sentence target_terms' Hkw')
      as [[Hnone' ->] | (d' & Hc' & Hbest')].
    + done.
    + destruct (Hnone d' (_score_for_sentence U sentence target_terms')).
      apply (candidate_target_ext _ _ _ _ _ (fun t => iff_sym (Hpos t)) Hc').
    + destruct (Hnone' d (_score_for_sentence U sentence target_terms)).
      apply (candidate_target_ext _ _ _ _ _ Hpos Hc).
    + pose proof (Hbest _ _ (candidate_target_ext _ _ _ _ _ (fun t => iff_sym (Hpos t)) Hc')) as H1.
      pose proof (Hbest' _ _ (candidate_target_ext _ _ _ _ _ Hpos Hc)) as H2.
      unfold at_least_as_good in H1, H2. lia.
  - assert (Hany' : existsb (fun t => Py.contains t (_normalize U sentence)) target_terms' = false).
    { apply existsb_false_Forall. intros t Ht. apply Hext in Ht.
      by apply (proj1 (existsb_false_Forall _ _) Hany). }
    unfold _score_for_sentence. by rewrite Hany, Hany'.
Qed.

Lemma score_ignores_keyword_order_witness :
  _score_for_sentence Unicode.ucd (py "comida boa, cafe ruim") FOOD_KW
  = _score_for_sentence Unicode.ucd (py "comida boa, cafe ruim") (rev FOOD_KW ++ FOOD_KW).
Proof.
  apply score_ignores_keyword_order. intros t.
  rewrite elem_of_app, !list_elem_of_In, <- in_rev. tauto.
Defined.

(** ** More on the dimension analyzer *)

Lemma scan_reviews_keeps_food (U : Unicode.UCD) (l : list str) (v : Z) (fs : option Z) :
  (scan_reviews U l (Some v) fs).1 = Some v.
Proof.
  revert fs. induction l as [|sent l IH]; intros fs; cbn [scan_reviews]; [done |].
  rewrite (bool_decide_eq_false_2 (Some v = None)) by done. cbn [andb].
  destruct (_ && _); [done | apply IH].
Qed.

Lemma scan_reviews_keeps_service (U : Unicode.UCD) (l : list str) (ff : option Z) (v : Z) :
  (scan_reviews U l ff (Some v)).2 = Some v.
Proof.
  revert ff. induction l as [|sent l IH]; intros ff; cbn [scan_reviews]; [done |].
  rewrite (bool_decide_eq_false_2 (Some v = None)) by done. cbn [andb].
  destruct (_ && bool_decide (Some v ≠ None)); [done | apply IH].
Qed.

Lemma scan_reviews_first_food (U : Unicode.UCD) (pre : list str) (sent : str)
    (post : list str) (fs : option Z) :
  (∀ p, p ∈ pre → mentions U FOOD_KW p = false) →
  mentions U FOOD_KW sent = true →
  (scan_reviews U (pre ++ sent :: post) None fs).1 = Some (_score_for_sentence U sent FOOD_KW).
Proof.
  intros Hpre Hsent. revert fs.
  induction pre as [|p pre IH]; intros fs; cbn [app scan_reviews].
  - rewrite Hsent, (bool_decide_eq_true_2 (None = None)) by done. cbn [andb].
    destruct (_ && _); [done | apply scan_reviews_keeps_food].
  - rewrite (Hpre p) by left. rewrite andb_false_r.
    rewrite (bool_decide_eq_false_2 (None ≠ None)) by (by intros H; apply H). cbn [andb].
    apply IH. intros q Hq. apply Hpre. by right.
Qed.

Lemma scan_reviews_first_service (U : Unicode.UCD) (pre : list str) (sent : str)
    (post : list str) (ff : option Z) :
  (∀ p, p ∈ pre → mentions U SERVICE_KW p = false) →
  mentions U SERVICE_KW sent = true →
  (scan_reviews U (pre ++ sent :: post) ff None).2
  = Some (_score_for_sentence U sent SERVICE_KW).
Proof.
  intros Hpre Hsent. revert ff.
  induction pre as [|p pre IH]; intros ff; cbn [app scan_reviews].
  - rewrite Hsent, (bool_decide_eq_true_2 (None = None)) by done. cbn [andb].
    destruct (_ && bool_decide (Some _ ≠ None)); [done | apply scan_reviews_keeps_service].
  - rewrite (Hpre p) by left. rewrite (andb_false_r (bool_decide (None = None))).
    rewrite (bool_decide_eq_false_2 (None ≠ None)) by (by intros H; apply H).
    rewrite andb_false_r. apply IH. intros q Hq. apply Hpre. by right.
Qed.

(** The two entries of the returned dict in terms of the scan. *)
Lemma analyze_reviews_lookup (U : Unicode.UCD) (review_sentences : list str) :
  (analyze_reviews U review_sentences).1 !! "food_scores"%string
  = Some [default 3%Z (scan_reviews U review_sentences None None).1]
  ∧ (analyze_reviews U review_sentences).1 !! "customer_service_scores"%string
    = Some [default 3%Z (scan_reviews U review_sentences None None).2].
Proof.
  unfold analyze_reviews.
  destruct (scan_reviews U review_sentences None None) as [[f|] [s|]]; cbn [fst snd default app];
    (split; [by rewrite lookup_insert_eq
            | rewrite lookup_insert_ne by done; by rewrite lookup_singleton_eq]).
Qed.

(** X8: the first relevant sentence decides. The food score is the score
    of the first sentence whose normalized form contains a food keyword,
    and the service score that of the first sentence containing a service
    keyword, whatever the sentences before and after say. *)
Theorem analyze_first_relevant_sentence
    (U : Unicode.UCD) (pre : list str) (sent : str) (post : list str) :
  ((∀ p k, p ∈ pre → k ∈ FOOD_KW → ¬ occurs_in k (_normalize U p)) →
   (∃ k, k ∈ FOOD_KW ∧ occurs_in k (_normalize U sent)) →
   (analyze_reviews U (pre ++ sent :: post)).1 !! "food_scores"%string
   = Some [_score_for_sentence U sent FOOD_KW])
  ∧ ((∀ p k, p ∈ pre → k ∈ SERVICE_KW → ¬ occurs_in k (_normalize U p)) →
     (∃ k, k ∈ SERVICE_KW ∧ occurs_in k (_normalize U sent)) →
     (analyze_reviews U (pre ++ sent :: post)).1 !! "customer_service_scores"%string
     = Some [_score_for_sentence U sent SERVICE_KW]).
Proof.
  destruct (analyze_reviews_lookup U (pre ++ sent :: post)) as [-> ->].
  assert (Hnone : ∀ terms (p : str),
            (∀ k, k ∈ terms → ¬ occurs_in k (_normalize U p)) → mentions U terms p = false).
  { intros terms p Hp. destruct (mentions U terms p) eqn:Hm; [| done].
    apply mentions_spec in Hm as (k & Hk & Hocc). by destruct (Hp k Hk). }
  split; intros Hpre Hsent.
  - rewrite scan_reviews_first_food; [done | | by apply mentions_spec].
    intros p Hp. apply Hnone. intros k Hk. by apply Hpre.
  - rewrite scan_reviews_first_service; [done | | by apply mentions_spec].
    intros p Hp. apply Hnone. intros k Hk. by apply Hpre.
Qed.

Lemma analyze_first_relevant_sentence_witness :
  (analyze_reviews Unicode.ucd
     ([py "Ambiente incrivel"] ++ py "Comida ruim" :: [py "Comida incrivel"])).1
    !! "food_scores"%string
  = Some [_score_for_sentence Unicode.ucd (py "Comida ruim") FOOD_KW].
Proof.
  destruct (analyze_first_relevant_sentence Unicode.ucd
              [py "Ambiente incrivel"] (py "Comida ruim") [py "Comida incrivel"]) as [Hfood _].
  apply Hfood.
  - intros p k Hp. apply list_elem_of_singleton in Hp as ->. revert k.
    apply Forall_forall. apply Forall_forall. intros k Hk. apply contains_false. revert k Hk.
    apply Forall_forall. apply (bool_decide_unpack _). vm_compute. reflexivity.
  - exists (py "comida"). split; [left |]. apply contains_spec. vm_compute. reflexivity.
Defined.

Lemma scan_reviews_found_both (U : Unicode.UCD) (l : list str) (a b : Z) :
  scan_reviews U l (Some a) (Some b) = (Some a, Some b).
Proof. by destruct l. Qed.

Lemma scan_reviews_app (U : Unicode.UCD) (l1 l2 : list str) (ff fs : option Z) :
  scan_reviews U (l1 ++ l2) ff fs
  = scan_reviews U l2 (scan_reviews U l1 ff fs).1 (scan_reviews U l1 ff fs).2.
Proof.
  revert ff fs. induction l1 as [|sent l1 IH]; intros ff fs; cbn [app scan_reviews]; [done |].
  set (ff' := if bool_decide (ff = None) && mentions U FOOD_KW sent
              then Some (_score_for_sentence U sent FOOD_KW) else ff).
  set (fs' := if bool_decide (fs = None) && mentions U SERVICE_KW sent
              then Some (_score_for_sentence U sent SERVICE_KW) else fs).
  destruct ff' as [a|], fs' as [b|]; cbn [andb fst snd];
    rewrite ?(bool_decide_eq_true_2 (Some _ ≠ None)) by done;
    rewrite ?(bool_decide_eq_false_2 (None ≠ None)) by (by intros H; apply H);
    cbn [andb fst snd]; rewrite ?andb_false_r; try apply IH.
  by rewrite scan_reviews_found_both.
Qed.

Lemma first_mention_split (U : Unicode.UCD) (terms : list str) (l : list str) :
  (∃ sent, sent ∈ l ∧ mentions U terms sent = true) →
  ∃ pre sent post, l = pre ++ sent :: post
                   ∧ (∀ p, p ∈ pre → mentions U terms p = false)
                   ∧ mentions U terms sent = true.
Proof.
  induction l as [|s l IH]; intros (sent & Hin & Hm); [by apply elem_of_nil in Hin |].
  destruct (mentions U terms s) eqn:Hs.
  - exists [], s, l. split; [done |]. split; [| done]. intros p Hp. by apply elem_of_nil in Hp.
  - apply elem_of_cons in Hin as [-> | Hin]; [congruence |].
    destruct IH as (pre & sent' & post & -> & Hpre & Hsent'); [by exists sent |].
    exists (s :: pre), sent', post. split; [done |]. split; [| done].
    intros p Hp. apply elem_of_cons in Hp as [-> | Hp]; [done | by apply Hpre].
Qed.

(** X9: once a food sentence and a service sentence have been seen, the
    rest of the list is not read: appending any sentences changes neither
    the returned scores nor what is printed. *)
Theorem analyze_ignores_the_rest (U : Unicode.UCD) (seen rest : list str) :
  (∃ sent k, sent ∈ seen ∧ k ∈ FOOD_KW ∧ occurs_in k (_normalize U sent)) →
  (∃ sent k, sent ∈ seen ∧ k ∈ SERVICE_KW ∧ occurs_in k (_normalize U sent)) →
  analyze_reviews U (seen ++ rest) = analyze_reviews U seen.
Proof.
  intros (sf & kf & Hsf & Hkf & Hoccf) (ss & ks & Hss & Hks & Hoccs).
  unfold analyze_reviews. rewrite scan_reviews_app.
  destruct (first_mention_split U FOOD_KW seen) as (pre & sent & post & Hseen & Hpre & Hsent).
  { exists sf. split; [done |]. apply mentions_spec. eauto. }
  destruct (first_mention_split U SERVICE_KW seen) as (pre' & sent' & post' & Hseen' & Hpre' & Hsent').
  { exists ss. split; [done |]. apply mentions_spec. eauto. }
  pose proof (scan_reviews_first_food U pre sent post None Hpre Hsent) as Hfood.
  pose proof (scan_reviews_first_service U pre' sent' post' None Hpre' Hsent') as Hservice.
  rewrite <- Hseen in Hfood. rewrite <- Hseen' in Hservice.
  destruct (scan_reviews U seen None None) as [ff fs]. cbn [fst snd] in *. subst ff fs.
  by rewrite scan_reviews_found_both.
Qed.

Lemma analyze_ignores_the_rest_witness :
  analyze_reviews Unicode.ucd
    ([py "Comida boa e atendimento ruim"] ++ [py "Comida horrivel"; py "Atendimento incrivel"])
  = analyze_reviews Unicode.ucd [py "Comida boa e atendimento ruim"].
Proof.
  apply analyze_ignores_the_rest.
  - exists (py "Comida boa e atendimento ruim"), (py "comida"). split; [left |].
    split; [left |]. apply contains_spec. vm_compute. reflexivity.
  - exists (py "Comida boa e atendimento ruim"), (py "atendimento"). split; [left |].
    split; [left |]. apply contains_spec. vm_compute. reflexivity.
Defined.

(** ** More on the aggregator *)

Lemma calculate_overall_score_value (restaurant_name : str) (food_scores cs_scores : list Z) :
  calculate_overall_score restaurant_name food_scores cs_scores
  = (fun v => {[ restaurant_name := v ]}) <$> overall_value food_scores cs_scores.
Proof.
  unfold calculate_overall_score, overall_value.
  destruct (_ || _); [done |].
  destruct (foldl _ _ _) as [total|]; [| done]. simpl.
  by destruct (Py.float_of_int _).
Qed.

Lemma foldl_ext_in {A B} (f g : A → B → A) (l : list B) (a : A) :
  (∀ a x, x ∈ l → f a x = g a x) → foldl f a l = foldl g a l.
Proof.
  revert a. induction l as [|x l IH]; intros a Hfg; simpl; [done |].
  rewrite Hfg by left. apply IH. intros a' y Hy. apply Hfg. by right.
Qed.

(** X10: only the first [min(len(food_scores), len(customer_service_scores))]
    pairs count: the scores beyond the shorter list change nothing, be it
    the result or an error. *)
Theorem overall_score_uses_paired_prefix
    (restaurant_name : str) (food_scores customer_service_scores : list Z) :
  let N := Nat.min (length food_scores) (length customer_service_scores) in
  calculate_overall_score restaurant_name food_scores customer_service_scores
  = calculate_overall_score restaurant_name (take N food_scores) (take N customer_service_scores).
Proof.
  intros N. unfold calculate_overall_score.
  destruct (decide (food_scores = [])) as [-> | Hfood].
  { by rewrite take_nil. }
  destruct (decide (customer_service_scores = [])) as [-> | Hservice].
  { subst N. rewrite Nat.min_0_r, take_0, take_nil.
    rewrite (bool_decide_eq_false_2 _ Hfood).
    by rewrite !(bool_decide_eq_true_2 ([] = [])) by done. }
  assert (HN : 0 < N).
  { subst N. destruct food_scores, customer_service_scores; simpl; done || lia. }
  assert (Hfood' : take N food_scores ≠ []).
  { destruct food_scores, N; simpl; done || lia. }
  assert (Hservice' : take N customer_service_scores ≠ []).
  { destruct customer_service_scores, N; simpl; done || lia. }
  rewrite (bool_decide_eq_false_2 _ Hfood), (bool_decide_eq_false_2 _ Hservice),
    (bool_decide_eq_false_2 _ Hfood'), (bool_decide_eq_false_2 _ Hservice').
  cbn [orb].
  assert (Hlen : Nat.min (length (take N food_scores)) (length (take N customer_service_scores))
                 = N).
  { rewrite !length_take. lia. }
  rewrite Hlen. fold N.
  rewrite (foldl_ext_in
             (fun total i => total ≫= fun t => score_term food_scores customer_service_scores t i)
             (fun total i => total ≫= fun t =>
                score_term (take N food_scores) (take N customer_service_scores) t i));
    [done |].
  intros total i Hi. apply list_elem_of_In, in_seq in Hi.
  destruct total as [t|]; [| done]. simpl. unfold score_term.
  by rewrite !lookup_take_lt by lia.
Qed.

Lemma one_pair_ratings_in_range (food service : Z) :
  (1 ≤ food ≤ 5)%Z → (1 ≤ service ≤ 5)%Z → rating_in_range food service = true.
Proof.
  intros Hfood Hservice.
  assert (Hall : forallb (fun f => forallb (rating_in_range f) [1; 2; 3; 4; 5]%Z)
                         [1; 2; 3; 4; 5]%Z = true) by (vm_compute; reflexivity).
  assert (Hf : In food [1; 2; 3; 4; 5]%Z) by (simpl; lia).
  assert (Hs : In service [1; 2; 3; 4; 5]%Z) by (simpl; lia).
  apply (proj1 (forallb_forall _ _) Hall) in Hf.
  by apply (proj1 (forallb_forall _ _) Hf) in Hs.
Qed.

(** X11: the analyzer and the aggregator compose. For every sentence
    list, feeding the two score lists of [analyze_reviews] to
    [calculate_overall_score] raises nothing and gives the restaurant a
    rating between 0.894 (scores 1 and 1) and 10.000 (scores 5 and 5). *)
Theorem analyzed_scores_give_a_rating
    (U : Unicode.UCD) (review_sentences : list str) (restaurant_name : str) :
  ∃ food_scores service_scores rating,
    (analyze_reviews U review_sentences).1 !! "food_scores"%string = Some food_scores
    ∧ (analyze_reviews U review_sentences).1 !! "customer_service_scores"%string
      = Some service_scores
    ∧ calculate_overall_score restaurant_name food_scores service_scores
      = Some {[ restaurant_name := rating ]}
    ∧ PrimFloat.leb (literal3 894) rating = true
    ∧ PrimFloat.leb rating (literal3 10000) = true.
Proof.
  destruct (analyze_reviews_lookup U review_sentences) as [Hfood Hservice].
  pose proof (scan_reviews_spec U review_sentences None None) as [Hf Hs].
  destruct (scan_reviews U review_sentences None None) as [ff fs]. cbn [fst snd] in *.
  set (food := default 3%Z ff) in *. set (service := default 3%Z fs) in *.
  assert (Hfood_range : (1 ≤ food ≤ 5)%Z).
  { subst food. destruct Hf as [-> | (sent & _ & _ & ->)]; simpl; [lia |].
    apply score_for_sentence_range. }
  assert (Hservice_range : (1 ≤ service ≤ 5)%Z).
  { subst service. destruct Hs as [-> | (sent & _ & _ & ->)]; simpl; [lia |].
    apply score_for_sentence_range. }
  pose proof (one_pair_ratings_in_range food service Hfood_range Hservice_range) as Hrange.
  unfold rating_in_range in Hrange.
  destruct (overall_value [food] [service]) as [rating|] eqn:Hvalue; [| done].
  apply andb_true_iff in Hrange as [Hlow Hhigh].
  exists [food], [service], rating. repeat split; try done.
  by rewrite calculate_overall_score_value, Hvalue.
Qed.

(** ** More on the lexicon *)

Lemma endswith_spec (s suffix : str) :
  Py.endswith s suffix = true ↔ ∃ stem, s = stem ++ suffix.
Proof.
  unfold Py.endswith. rewrite startswith_spec. split.
  - intros [rest Hrev]. exists (rev rest).
    apply (f_equal (@rev N)) in Hrev. by rewrite rev_involutive, rev_app_distr, rev_involutive in Hrev.
  - intros [stem ->]. exists (rev stem). by rewrite rev_app_distr.
Qed.

Lemma drop_last_app (n : nat) (stem suffix : str) :
  length suffix = n → Py.drop_last n (stem ++ suffix) = stem.
Proof.
  intros <-. unfold Py.drop_last. rewrite length_app.
  replace (length stem + length suffix - length suffix) with (length stem) by lia.
  by rewrite take_app_length.
Qed.

Lemma elem_of_if_union (b : bool) (x : str) (variants more : gset str) :
  x ∈ (if b then variants ∪ more else variants) ↔ x ∈ variants ∨ (b = true ∧ x ∈ more).
Proof.
  destruct b.
  - rewrite elem_of_union. tauto.
  - split; [by left | intros [H | [H _]]; [done | discriminate]].
Qed.

(** Membership in the result of [_expand_adj_variants], rule by rule. *)
Lemma expand_elem (a x : str) :
  a ≠ py "bom" → a ≠ py "ruim" →
  x ∈ _expand_adj_variants a ↔
    x = a
    ∨ (Py.endswith a (py "o") = true
       ∧ x ∈ [Py.drop_last 1 a ++ py "a"; Py.drop_last 1 a ++ py "os"; Py.drop_last 1 a ++ py "as"])
    ∨ (Py.endswith a (py "ivel") = true ∧ x = Py.drop_last 4 a ++ py "iveis")
    ∨ (Py.endswith a (py "vel") = true ∧ x = Py.drop_last 3 a ++ py "veis")
    ∨ (Py.endswith a (py "el") = true ∧ x = Py.drop_last 2 a ++ py "eis")
    ∨ (Py.endswith a (py "ente") || Py.endswith a (py "ante") = true ∧ x = a ++ py "s")
    ∨ (Py.endswith a (py "ivo") = true
       ∧ x ∈ [Py.drop_last 3 a ++ py "iva"; Py.drop_last 3 a ++ py "ivos";
              Py.drop_last 3 a ++ py "ivas"]).
Proof.
  intros Hbom Hruim. unfold _expand_adj_variants, update.
  rewrite (bool_decide_eq_false_2 _ Hbom), (bool_decide_eq_false_2 _ Hruim).
  rewrite elem_of_elements. cbv zeta.
  rewrite !elem_of_if_union, !elem_of_list_to_set, !elem_of_singleton. tauto.
Qed.

(** X12: every form comes from the endings [-o], [-el], [-ente] or
    [-ante]. For a base word other than the two irregular ones, the forms
    are the word itself, [stem+a], [stem+os], [stem+as] for a word in [-o],
    [stem+eis] for a word in [-el], and [word+s] for a word in [-ente] or
    [-ante]: the rules for [-ivel], [-vel] and [-ivo] add nothing more. *)
Theorem expand_rules_that_matter (a x : str) :
  a ≠ py "bom" → a ≠ py "ruim" →
  x ∈ _expand_adj_variants a ↔
    x = a
    ∨ (∃ stem, a = stem ++ py "o"
               ∧ x ∈ [stem ++ py "a"; stem ++ py "os"; stem ++ py "as"])
    ∨ (∃ stem, a = stem ++ py "el" ∧ x = stem ++ py "eis")
    ∨ ((∃ stem, a = stem ++ py "ente") ∨ (∃ stem, a = stem ++ py "ante")) ∧ x = a ++ py "s".
Proof.
  intros Hbom Hruim. rewrite (expand_elem a x Hbom Hruim).
  rewrite orb_true_iff, !endswith_spec. split.
  - intros [-> | [[[stem ->] Hx] | [[[stem ->] ->] | [[[stem ->] ->] | [[[stem ->] ->]
      | [[Hs ->] | [[stem ->] Hx]]]]]]].
    + by left.
    + right. left. exists stem. split; [done |].
      rewrite (drop_last_app 1 stem (py "o")) in Hx by done. exact Hx.
    + right. right. left. exists (stem ++ py "iv"). split; [by rewrite <- app_assoc |].
      rewrite (drop_last_app 4 stem (py "ivel")) by done. by rewrite <- app_assoc.
    + right. right. left. exists (stem ++ py "v"). split; [by rewrite <- app_assoc |].
      rewrite (drop_last_app 3 stem (py "vel")) by done. by rewrite <- app_assoc.
    + right. right. left. exists stem. split; [done |].
      by rewrite (drop_last_app 2 stem (py "el")) by done.
    + right. right. right. done.
    + right. left. exists (stem ++ py "iv"). split; [by rewrite <- app_assoc |].
      rewrite (drop_last_app 3 stem (py "ivo")) in Hx by done. by rewrite <- !app_assoc.
  - intros [-> | [(stem & -> & Hx) | [(stem & -> & ->) | [Hs ->]]]].
    + by left.
    + right. left. split; [by exists stem |].
      by rewrite (drop_last_app 1 stem (py "o")) by done.
    + right. right. right. right. left. split; [by exists stem |].
      by rewrite (drop_last_app 2 stem (py "el")) by done.
    + right. right. right. right. right. left. done.
Qed.

Lemma expand_rules_that_matter_witness :
  py "horriveis" ∈ _expand_adj_variants (py "horrivel") ↔
    py "horriveis" = py "horrivel"
    ∨ (∃ stem, py "horrivel" = stem ++ py "o"
               ∧ py "horriveis" ∈ [stem ++ py "a"; stem ++ py "os"; stem ++ py "as"])
    ∨ (∃ stem, py "horrivel" = stem ++ py "el" ∧ py "horriveis" = stem ++ py "eis")
    ∨ ((∃ stem, py "horrivel" = stem ++ py "ente") ∨ (∃ stem, py "horrivel" = stem ++ py "ante"))
      ∧ py "horriveis" = py "horrivel" ++ py "s".
Proof. by apply expand_rules_that_matter. Defined.

(** What the de-duplication loop keeps: [seen] is the set of [uniq], and
    [uniq] has no repetition. *)
Lemma uniq_loop_spec (bucket : list str) (seen : gset str) (uniq : list str) :
  (∀ y, y ∈ seen ↔ y ∈ uniq) → NoDup uniq →
  NoDup (uniq_loop bucket seen uniq)
  ∧ ∀ x, x ∈ uniq_loop bucket seen uniq ↔ x ∈ uniq ∨ x ∈ bucket.
Proof.
  revert seen uniq. induction bucket as [|b bucket IH]; intros seen uniq Hseen Hnodup; simpl.
  - split; [done |]. intros x. split; [by left | intros [H | H]; [done | by apply elem_of_nil in H]].
  - destruct (decide (b ∈ seen)) as [Hb | Hb].
    + destruct (IH seen uniq Hseen Hnodup) as [Hnd Hmem]. split; [done |].
      intros x. rewrite Hmem, elem_of_cons. split; [tauto |].
      intros [H | [-> | H]]; [by left | left; by apply Hseen | by right].
    + destruct (IH ({[b]} ∪ seen) (uniq ++ [b])) as [Hnd Hmem].
      * intros y. rewrite elem_of_union, elem_of_singleton, elem_of_app, list_elem_of_singleton, Hseen.
        tauto.
      * apply NoDup_app. split; [done |]. split; [| apply NoDup_singleton].
        intros y Hy Hyb. apply list_elem_of_singleton in Hyb as ->. apply Hb. by apply Hseen.
      * split; [done |]. intros x.
        rewrite Hmem, elem_of_app, list_elem_of_singleton, elem_of_cons. tauto.
Qed.

(** X13: [_build_adj_index] keeps the keys of the scale, and the bucket
    of a score holds, without repetition, exactly the forms that
    [_expand_adj_variants] gives for the base adjectives of that score. *)
Theorem build_adj_index_buckets (scale : gmap Z (list str)) :
  dom (_build_adj_index scale) = dom scale
  ∧ ∀ score adjs, scale !! score = Some adjs →
      ∃ forms, _build_adj_index scale !! score = Some forms
               ∧ NoDup forms
               ∧ ∀ x, x ∈ forms ↔ ∃ a, a ∈ adjs ∧ x ∈ _expand_adj_variants a.
Proof.
  split; [apply dom_fmap_L |].
  intros score adjs Hscore. exists (expand_bucket adjs). split.
  - unfold _build_adj_index. by rewrite lookup_fmap, Hscore.
  - unfold expand_bucket.
    destruct (uniq_loop_spec (flat_map _expand_adj_variants adjs) ∅ []) as [Hnd Hmem];
      [by intros y; rewrite elem_of_empty, elem_of_nil | apply NoDup_nil_2 |].
    split; [done |]. intros x. rewrite Hmem. split.
    + intros [H | H]; [by apply elem_of_nil in H |].
      apply list_elem_of_In, in_flat_map in H as (a & Ha & Hx).
      exists a. by rewrite !list_elem_of_In.
    + intros (a & Ha & Hx). right. apply list_elem_of_In, in_flat_map.
      exists a. by rewrite <- !list_elem_of_In.
Qed.

(** ** The corpus loader *)

Lemma split_once_first (pre sep post : str) :
  (∀ k, k < length pre → Py.startswith (drop k (pre ++ sep ++ post)) sep = false) →
  split_once sep (pre ++ sep ++ post) = Some (pre, post).
Proof.
  intros Hearly. unfold split_once.
  assert (Hhere : Py.startswith (drop (length pre) (pre ++ sep ++ post)) sep = true).
  { rewrite drop_app_length. apply startswith_spec. by exists post. }
  destruct (Py.find_aux (pre ++ sep ++ post) sep 0) as [j|] eqn:Hfind; simpl.
  - apply find_aux_Some in Hfind as (k & -> & _ & Hocc & Hleast). simpl.
    assert (k = length pre) as ->.
    { destruct (Nat.lt_trichotomy k (length pre)) as [Hlt | [Heq | Hgt]]; [| done |].
      - by rewrite (Hearly k Hlt) in Hocc.
      - by rewrite (Hleast _ Hgt) in Hhere. }
    rewrite take_app_length. f_equal. f_equal.
    rewrite app_assoc, <- length_app. apply drop_app_length.
  - by rewrite (find_aux_None _ _ _ Hfind) in Hhere.
Qed.

Lemma split_once_absent (sep s : str) :
  ¬ occurs_in sep s → split_once sep s = None.
Proof.
  intros Habsent. unfold split_once.
  destruct (Py.find_aux s sep 0) as [j|] eqn:Hfind; [| done].
  apply find_aux_Some in Hfind as (k & _ & Hk & Hocc & _).
  destruct Habsent. apply (occurs_at_occurs_in s sep (Z.of_nat k)). by apply occurs_at_drop.
Qed.

Lemma no_early_separator (name rest : str) (k : nat) :
  ¬ occurs_in (py ". ") name → k < length name →
  Py.startswith (drop k (name ++ py ". " ++ rest)) (py ". ") = false.
Proof.
  intros Habsent Hk. destruct (Py.startswith _ _) eqn:Hs; [| done]. exfalso.
  apply startswith_spec in Hs as [suf Hs].
  assert (H0 : (name ++ py ". " ++ rest) !! k = Some 46%N).
  { rewrite <- (Nat.add_0_r k), <- lookup_drop, Hs. done. }
  assert (H1 : (name ++ py ". " ++ rest) !! (k + 1) = Some 32%N).
  { rewrite <- lookup_drop, Hs. done. }
  rewrite lookup_app_l in H0 by done.
  destruct (decide (k + 1 < length name)) as [Hin | Hout].
  - rewrite lookup_app_l in H1 by done. apply Habsent.
    exists (take k name), (drop (S (S k)) name).
    rewrite <- (take_drop_middle name k 46%N H0) at 1. f_equal. simpl. f_equal.
    replace (k + 1) with (S k) in H1 by lia.
    rewrite <- (take_drop_middle name (S k) 32%N H1) at 1.
    by rewrite drop_app_length' by (rewrite length_take; lia).
  - rewrite lookup_app_r in H1 by lia.
    replace (k + 1 - length name) with 0 in H1 by lia. done.
Qed.

(** X14: a corpus line ["<name>. <review>"]. When the trimmed line is
    [name ++ ". " ++ review] and [". "] does not occur inside [name], the
    entry stored is the trimmed name with the trimmed review: the name
    ends at the first [". "], and further dots stay in the review. *)
Theorem load_line_name_and_review (data : list (str * str)) (line name review : str) :
  Py.strip line = name ++ py ". " ++ review →
  ¬ occurs_in (py ". ") name →
  load_line data line = dict_set data (Py.strip name) (Py.strip review).
Proof.
  intros Hline Hname. unfold load_line. rewrite Hline.
  rewrite bool_decide_eq_false_2 by (by destruct name).
  rewrite split_once_first; [done |].
  intros k Hk. by apply no_early_separator.
Qed.

Lemma load_line_name_and_review_witness :
  load_line [] (py "  Bob's. Comida boa. Atendimento ruim.  ")
  = dict_set [] (Py.strip (py "Bob's")) (Py.strip (py "Comida boa. Atendimento ruim.")).
Proof.
  apply load_line_name_and_review.
  - vm_compute. reflexivity.
  - apply contains_false. vm_compute. reflexivity.
Defined.

(** X15: a line without any dot is a restaurant without review: the
    whole trimmed line is the name and the review is empty. *)
Theorem load_line_without_dot (data : list (str * str)) (line : str) :
  Py.strip line ≠ [] →
  (∀ c, c ∈ line → c ≠ 46%N) →
  load_line data line = dict_set data (Py.strip line) [].
Proof.
  intros Hblank Hdot. unfold load_line.
  rewrite (bool_decide_eq_false_2 _ Hblank).
  assert (Hnodot : ∀ sep, 46%N ∈ sep → ¬ occurs_in sep (Py.strip line)).
  { intros sep Hsep Hocc. apply (Hdot 46%N); [| done].
    apply (occurs_in_elem (Py.strip line)); [apply strip_occurs |].
    by apply (occurs_in_elem sep). }
  rewrite (split_once_absent (py ". ")) by (apply Hnodot; left).
  rewrite (split_once_absent (py ".")) by (apply Hnodot; left).
  by rewrite strip_idempotent.
Qed.

Lemma load_line_without_dot_witness :
  load_line [] (py " Cantina do Ze ") = dict_set [] (Py.strip (py " Cantina do Ze ")) [].
Proof.
  apply load_line_without_dot.
  - vm_compute. discriminate.
  - apply Forall_forall. apply (bool_decide_unpack _). vm_compute. reflexivity.
Defined.

Lemma dict_set_keys (data : list (str * str)) (name review : str) :
  map fst (dict_set data name review)
  = if bool_decide (name ∈ map fst data) then map fst data else map fst data ++ [name].
Proof.
  induction data as [|[n r] data IH]; cbn [dict_set map fst].
  - rewrite (bool_decide_eq_false_2 (name ∈ [])); [done | by intros H; apply elem_of_nil in H].
  - destruct (decide (n = name)) as [-> | Hn].
    + rewrite (bool_decide_eq_true_2 (name = name)) by done.
      rewrite (bool_decide_eq_true_2 (name ∈ name :: map fst data)) by left. done.
    + rewrite (bool_decide_eq_false_2 (n = name)) by done. cbn [map fst]. rewrite IH.
      destruct (decide (name ∈ map fst data)) as [Hin | Hin].
      * rewrite (bool_decide_eq_true_2 _ Hin).
        rewrite (bool_decide_eq_true_2 (name ∈ n :: map fst data)) by (by right). done.
      * rewrite (bool_decide_eq_false_2 _ Hin).
        rewrite (bool_decide_eq_false_2 (name ∈ n :: map fst data)); [done |].
        intros H. apply elem_of_cons in H as [-> | H]; done.
Qed.

Lemma dict_set_Forall (P : str * str → Prop) (data : list (str * str)) (name review : str) :
  Forall P data → P (name, review) → Forall P (dict_set data name review).
Proof.
  intros Hdata Hnew. induction Hdata as [|[n r] data Hn Hdata IH]; cbn [dict_set].
  - by constructor.
  - case_bool_decide as Heq; [subst n |]; constructor; auto.
Qed.

(** X16: the corpus that [_load_reviews] builds has each restaurant name
    once, and every name and every review in it is trimmed of surrounding
    blanks. *)
Theorem load_reviews_corpus_invariant (lines : list str) :
  NoDup (map fst (_load_reviews lines))
  ∧ Forall (fun entry => Py.strip entry.1 = entry.1 ∧ Py.strip entry.2 = entry.2)
           (_load_reviews lines).
Proof.
  unfold _load_reviews.
  assert (Hgen : ∀ data,
            NoDup (map fst data)
            ∧ Forall (fun entry : str * str =>
                        Py.strip entry.1 = entry.1 ∧ Py.strip entry.2 = entry.2) data →
            NoDup (map fst (fold_left load_line lines data))
            ∧ Forall (fun entry : str * str =>
                        Py.strip entry.1 = entry.1 ∧ Py.strip entry.2 = entry.2)
                     (fold_left load_line lines data)).
  { induction lines as [|line lines IH]; intros data Hdata; simpl; [done |].
    apply IH. destruct Hdata as [Hnd Htrim]. unfold load_line.
    case_bool_decide; [done |].
    destruct (match split_once (py ". ") (Py.strip line) with
              | Some (name, review) => (name, review)
              | None => match split_once (py ".") (Py.strip line) with
                        | Some (name, rest) => (name, Py.lstrip_by Py.isspace rest)
                        | None => (Py.strip line, [])
                        end
              end) as [name review].
    split.
    - rewrite dict_set_keys. case_bool_decide as Hin; [done |].
      apply NoDup_app. split; [done |]. split; [| apply NoDup_singleton].
      intros y Hy Hy'. apply list_elem_of_singleton in Hy' as ->. done.
    - apply dict_set_Forall; [done |]. cbn [fst snd]. by rewrite !strip_idempotent. }
  apply Hgen. split; [apply NoDup_nil_2 | constructor].
Qed.

(** ** Code fences *)

Lemma lstrip_by_app_dropped (P : N → bool) (dropped s : str) :
  Forall (fun c => P c = true) dropped →
  Py.lstrip_by P (dropped ++ s) = Py.lstrip_by P s.
Proof. induction 1 as [|c dropped Hc _ IH]; simpl; [done | by rewrite Hc]. Qed.

Lemma rstrip_by_app_dropped (P : N → bool) (s dropped : str) :
  Forall (fun c => P c = true) dropped →
  Py.rstrip_by P (s ++ dropped) = Py.rstrip_by P s.
Proof.
  intros Hdropped. unfold Py.rstrip_by. rewrite rev_app_distr, lstrip_by_app_dropped; [done |].
  apply Forall_forall. intros c Hc. apply list_elem_of_In, in_rev, list_elem_of_In in Hc.
  by apply (proj1 (Forall_forall _ _) Hdropped).
Qed.

Lemma lstrip_by_all (P : N → bool) (s : str) :
  Forall (fun c => P c = true) s → Py.lstrip_by P s = [].
Proof. induction 1 as [|c s Hc _ IH]; simpl; [done | by rewrite Hc]. Qed.

(** [s.strip(chars)] of a core wrapped in characters of [chars]. *)
Lemma strip_chars_wrapped (chars opening core closing : str) :
  Forall (fun c => Py.char_in chars c = true) opening →
  Forall (fun c => Py.char_in chars c = true) closing →
  (∀ c rest, core = c :: rest → Py.char_in chars c = false) →
  (∀ front c, core = front ++ [c] → Py.char_in chars c = false) →
  strip_chars chars (opening ++ core ++ closing) = core.
Proof.
  intros Hopening Hclosing Hhead Hlast. unfold strip_chars.
  rewrite lstrip_by_app_dropped by done.
  destruct core as [|c core].
  - simpl. rewrite lstrip_by_all by done. done.
  - rewrite lstrip_by_id.
    + rewrite rstrip_by_app_dropped by done. by apply rstrip_by_id.
    + intros a rest [= <- _]. by apply (Hhead c core).
Qed.

(** X17: text that does not open with three backquotes (after trimming)
    is returned trimmed and otherwise untouched. *)
Theorem clean_code_fence_without_fence (text : str) :
  Py.startswith (Py.strip text) (py "```") = false →
  _clean_code_fence text = Py.strip text.
Proof.
  intros Hfence. unfold _clean_code_fence. rewrite Hfence.
  destruct (Py.startswith (Py.strip text) (py "````")) eqn:Hfour; [| done].
  apply startswith_spec in Hfour as [suf Hs].
  assert (Hthree : Py.startswith (Py.strip text) (py "```") = true).
  { apply startswith_spec. exists (py "`" ++ suf). by rewrite Hs. }
  congruence.
Qed.

Lemma clean_code_fence_without_fence_witness :
  _clean_code_fence (py "  [1, 2]  ") = Py.strip (py "  [1, 2]  ").
Proof. apply clean_code_fence_without_fence. vm_compute. reflexivity. Defined.

(** X18: a fenced block. When the trimmed text is an opening run of
    backquotes and newlines that starts with three backquotes, then a core
    that neither starts nor ends with a backquote or a newline, then a
    closing run of backquotes and newlines, the result is what follows the
    first newline of the core, or the whole core when it has no newline.
    So with a language tag on the opening line ([tag], a newline, [body])
    the result is [body]; without a tag, a body of several lines loses its
    first line. *)
Theorem clean_code_fence_of_block (text opening core closing : str) :
  Py.strip text = opening ++ core ++ closing →
  Py.startswith opening (py "```") = true →
  Forall (fun c => Py.char_in fence_chars c = true) opening →
  Forall (fun c => Py.char_in fence_chars c = true) closing →
  (∀ c rest, core = c :: rest → Py.char_in fence_chars c = false) →
  (∀ front c, core = front ++ [c] → Py.char_in fence_chars c = false) →
  _clean_code_fence text = split_last [10%N] core
  ∧ (∀ tag body, core = tag ++ [10%N] ++ body → 10%N ∉ tag → _clean_code_fence text = body)
  ∧ (10%N ∉ core → _clean_code_fence text = core).
Proof.
  intros Htext Hopen Hopening Hclosing Hhead Hlast.
  assert (Hclean : _clean_code_fence text = split_last [10%N] core).
  { unfold _clean_code_fence. rewrite Htext.
    assert (Hthree : Py.startswith (opening ++ core ++ closing) (py "```") = true).
    { apply startswith_spec in Hopen as [suf Hsuf]. apply startswith_spec.
      exists (suf ++ core ++ closing). subst opening. by rewrite <- app_assoc. }
    rewrite Hthree. cbn [orb]. by rewrite strip_chars_wrapped. }
  split; [exact Hclean |]. split.
  - intros tag body -> Htag. rewrite Hclean. unfold split_last.
    rewrite (split_once_first tag [10%N] body); [done |].
    intros k Hk.
    destruct (Py.startswith (drop k (tag ++ [10%N] ++ body)) [10%N]) eqn:Hs; [| done].
    exfalso. apply startswith_spec in Hs as [suf Hs]. apply Htag.
    assert (H0 : drop k (tag ++ [10%N] ++ body) !! 0 = Some 10%N) by by rewrite Hs.
    rewrite lookup_drop, Nat.add_0_r, lookup_app_l in H0 by done.
    by apply list_elem_of_lookup_2 in H0.
  - intros Hnone. rewrite Hclean. unfold split_last.
    rewrite split_once_absent; [done |].
    intros Hocc. apply Hnone. apply (occurs_in_elem [10%N]); [done | left].
Qed.

Lemma clean_code_fence_of_block_witness :
  _clean_code_fence
    (py "```json" ++ [10%N] ++ py "[1," ++ [10%N] ++ py " 2]" ++ [10%N] ++ py "```"
     ++ [10%N])
  = py "[1," ++ [10%N] ++ py " 2]".
Proof.
  destruct (clean_code_fence_of_block
              (py "```json" ++ [10%N] ++ py "[1," ++ [10%N] ++ py " 2]"
               ++ [10%N] ++ py "```" ++ [10%N])
              (py "```")
              (py "json" ++ [10%N] ++ py "[1," ++ [10%N] ++ py " 2]")
              ([10%N] ++ py "```")) as (_ & Htag & _).
  - vm_compute. reflexivity.
  - vm_compute. reflexivity.
  - apply (bool_decide_unpack _). vm_compute. reflexivity.
  - apply (bool_decide_unpack _). vm_compute. reflexivity.
  - intros c rest [= <- _]. vm_compute. reflexivity.
  - intros front c Hlast. apply (f_equal last) in Hlast. rewrite last_snoc in Hlast.
    vm_compute in Hlast. injection Hlast as <-. vm_compute. reflexivity.
  - apply (Htag (py "json")); [done |]. apply (bool_decide_unpack _). vm_compute. reflexivity.
Defined.

(** ** The normalizer on ASCII text *)

Lemma ascii_facts (c : N) :
  (c < 128)%N →
  Unicode.tolower_full Unicode.ucd c = [ascii_lower c]
  ∧ c ≠ Unicode.CAPITAL_SIGMA
  ∧ Unicode.canonical_decomposition Unicode.ucd (ascii_lower c) = [ascii_lower c]
  ∧ Unicode.combining Unicode.ucd (ascii_lower c) = 0%N
  ∧ Unicode.category Unicode.ucd (ascii_lower c) ≠ "Mn"%string.
Proof.
  intros Hc.
  assert (Hall : Forall
            (fun c => Unicode.tolower_full Unicode.ucd c = [ascii_lower c]
                      ∧ c ≠ Unicode.CAPITAL_SIGMA
                      ∧ Unicode.canonical_decomposition Unicode.ucd (ascii_lower c)
                        = [ascii_lower c]
                      ∧ Unicode.combining Unicode.ucd (ascii_lower c) = 0%N
                      ∧ Unicode.category Unicode.ucd (ascii_lower c) ≠ "Mn"%string)
            (map N.of_nat (seq 0 128))).
  { apply (bool_decide_unpack _). vm_compute. reflexivity. }
  apply (proj1 (Forall_forall _ _) Hall).
  apply list_elem_of_In, in_map_iff. exists (N.to_nat c). split; [lia |]. apply in_seq. lia.
Qed.

Lemma lower_from_ascii (before_rev x : str) :
  Forall (fun c => (c < 128)%N) x →
  Unicode.lower_from Unicode.ucd before_rev x = map ascii_lower x.
Proof.
  intros Hx. revert before_rev.
  induction Hx as [|c x Hc Hx IH]; intros before_rev; cbn [Unicode.lower_from map]; [done |].
  destruct (ascii_facts c Hc) as (Hlow & Hsigma & _).
  unfold Unicode.lower_char.
  destruct (N.eqb_spec c Unicode.CAPITAL_SIGMA) as [? | _]; [done |].
  by rewrite Hlow, IH.
Qed.

(** X19: on ASCII text the normalizer is lower-casing, character by
    character: the result has the length of the input, so that offsets in
    the normalized sentence are offsets in the sentence. *)
Theorem normalize_ascii (x : str) :
  Forall (fun c => (c < 128)%N) x →
  _normalize Unicode.ucd x = map ascii_lower x
  ∧ length (_normalize Unicode.ucd x) = length x.
Proof.
  intros Hx.
  assert (Hnorm : _normalize Unicode.ucd x = map ascii_lower x).
  { unfold _normalize, Unicode.lower, Unicode.NFD. rewrite lower_from_ascii by done.
    assert (Hdec : Unicode.decompose Unicode.ucd (map ascii_lower x) = map ascii_lower x).
    { unfold Unicode.decompose. induction Hx as [|c x Hc Hx IH]; [done |].
      cbn [map flat_map]. destruct (ascii_facts c Hc) as (_ & _ & -> & _). by rewrite IH. }
    rewrite Hdec, canonical_order_starters.
    - apply filter_all. apply Forall_forall. intros d Hd.
      apply list_elem_of_In, in_map_iff in Hd as (c & <- & Hc).
      apply list_elem_of_In in Hc. apply (proj1 (Forall_forall _ _) Hx) in Hc.
      by destruct (ascii_facts c Hc) as (_ & _ & _ & _ & ?).
    - apply Forall_forall. intros d Hd.
      apply list_elem_of_In, in_map_iff in Hd as (c & <- & Hc).
      apply list_elem_of_In in Hc. apply (proj1 (Forall_forall _ _) Hx) in Hc.
      by destruct (ascii_facts c Hc) as (_ & _ & _ & ? & _). }
  split; [exact Hnorm |]. by rewrite Hnorm, length_map.
Qed.

Lemma normalize_ascii_witness :
  _normalize Unicode.ucd (py "Comida BOA!") = map ascii_lower (py "Comida BOA!")
  ∧ length (_normalize Unicode.ucd (py "Comida BOA!")) = length (py "Comida BOA!").
Proof.
  apply normalize_ascii. apply (bool_decide_unpack _). vm_compute. reflexivity.
Defined.

(** ** Scores and the adjectives of the sentence *)

Lemma position_occurs (hay needle : str) (m : Z) :
  m ∈ _positions hay needle → occurs_in needle hay.
Proof.
  unfold _positions.
  destruct (positions_loop_spec (length hay + 2) hay needle 0) as (starts & -> & Hscan);
    [lia | lia |].
  intros Hm. apply list_elem_of_In, in_map_iff in Hm as (p & _ & Hp).
  apply scan_from_lower_bound in Hscan.
  apply list_elem_of_In in Hp. apply (proj1 (Forall_forall _ _) Hscan) in Hp as [_ Hp].
  by apply (occurs_at_occurs_in hay needle p).
Qed.

(** X20: the scorer never returns a level none of whose adjectives is in
    the sentence. The score is 3, or it is a level of which some expanded
    form occurs in the normalized sentence; so a sentence that contains no
    form of any scale adjective scores 3, with or without a keyword. *)
Theorem score_comes_from_an_adjective
    (U : Unicode.UCD) (sentence : str) (target_terms : list str) :
  (_score_for_sentence U sentence target_terms = 3%Z
   ∨ ∃ forms form,
       ADJ_IDX !! _score_for_sentence U sentence target_terms = Some forms
       ∧ form ∈ forms ∧ occurs_in form (_normalize U sentence))
  ∧ ((∀ level forms form, ADJ_IDX !! level = Some forms → form ∈ forms →
        ¬ occurs_in form (_normalize U sentence)) →
     _score_for_sentence U sentence target_terms = 3%Z).
Proof.
  assert (Hmain : _score_for_sentence U sentence target_terms = 3%Z
                  ∨ ∃ forms form,
                      ADJ_IDX !! _score_for_sentence U sentence target_terms = Some forms
                      ∧ form ∈ forms ∧ occurs_in form (_normalize U sentence)).
  { destruct (existsb (fun t => Py.contains t (_normalize U sentence)) target_terms) eqn:Hany.
    - apply existsb_true_elem_of in Hany as (t & Hin & Ht). apply contains_spec in Ht.
      destruct (score_for_sentence_optimal U sentence target_terms) as [[_ ->] | (d & Hc & _)];
        [by exists t | by left |].
      right. destruct Hc as (_ & forms & adj & apos & Hforms & Hadj & Hapos & _).
      exists forms, adj. split; [done |]. split; [done |]. by apply (position_occurs _ _ apos).
    - left. unfold _score_for_sentence. by rewrite Hany. }
  split; [exact Hmain |].
  intros Hnone. destruct Hmain as [H3 | (forms & form & Hforms & Hform & Hocc)]; [done |].
  by destruct (Hnone _ forms form Hforms Hform).
Qed.

(** ** What the analyzer prints *)

Lemma scan_reviews_none_food (U : Unicode.UCD) (l : list str) (fs : option Z) :
  (∀ sent, sent ∈ l → mentions U FOOD_KW sent = false) →
  (scan_reviews U l None fs).1 = None.
Proof.
  revert fs. induction l as [|sent l IH]; intros fs Hl; cbn [scan_reviews]; [done |].
  rewrite (Hl sent) by left. rewrite andb_false_r.
  rewrite (bool_decide_eq_false_2 (None ≠ None)) by (by intros H; apply H). cbn [andb].
  apply IH. intros s Hs. apply Hl. by right.
Qed.

Lemma scan_reviews_none_service (U : Unicode.UCD) (l : list str) (ff : option Z) :
  (∀ sent, sent ∈ l → mentions U SERVICE_KW sent = false) →
  (scan_reviews U l ff None).2 = None.
Proof.
  revert ff. induction l as [|sent l IH]; intros ff Hl; cbn [scan_reviews]; [done |].
  rewrite (Hl sent) by left. rewrite (andb_false_r (bool_decide (None = None))).
  rewrite (bool_decide_eq_false_2 (None ≠ None)) by (by intros H; apply H).
  rewrite andb_false_r. apply IH. intros s Hs. apply Hl. by right.
Qed.

(** X21: the analyzer prints ["first_food - NONE"] exactly when no
    sentence mentions a food keyword, and ["first_service - NONE"] exactly
    when none mentions a service keyword; it prints nothing else. *)
Theorem analyze_reviews_prints (U : Unicode.UCD) (review_sentences : list str) :
  (analyze_reviews U review_sentences).2
  = (if existsb (mentions U FOOD_KW) review_sentences then []
     else ["first_food - NONE"%string])
    ++ (if existsb (mentions U SERVICE_KW) review_sentences then []
        else ["first_service - NONE"%string]).
Proof.
  assert (Hfood : (scan_reviews U review_sentences None None).1 = None
                  ↔ existsb (mentions U FOOD_KW) review_sentences = false).
  { rewrite existsb_false_Forall. split.
    - intros Hnone sent Hsent. destruct (mentions U FOOD_KW sent) eqn:Hm; [| done].
      destruct (first_mention_split U FOOD_KW review_sentences) as (pre & s & post & -> & Hpre & Hs);
        [by exists sent |].
      by rewrite (scan_reviews_first_food U pre s post None Hpre Hs) in Hnone.
    - apply scan_reviews_none_food. }
  assert (Hservice : (scan_reviews U review_sentences None None).2 = None
                     ↔ existsb (mentions U SERVICE_KW) review_sentences = false).
  { rewrite existsb_false_Forall. split.
    - intros Hnone sent Hsent. destruct (mentions U SERVICE_KW sent) eqn:Hm; [| done].
      destruct (first_mention_split U SERVICE_KW review_sentences)
        as (pre & s & post & -> & Hpre & Hs); [by exists sent |].
      by rewrite (scan_reviews_first_service U pre s post None Hpre Hs) in Hnone.
    - apply scan_reviews_none_service. }
  unfold analyze_reviews.
  destruct (scan_reviews U review_sentences None None) as [ff fs]. cbn [fst snd] in *.
  assert (Hout1 : (match ff with
                   | None => (3%Z, ["first_food - NONE"%string])
                   | Some f => (f, [])
                   end).2
                  = if existsb (mentions U FOOD_KW) review_sentences then []
                    else ["first_food - NONE"%string]).
  { destruct ff as [f|], (existsb (mentions U FOOD_KW) review_sentences) eqn:He; try done.
    - discriminate (proj2 Hfood eq_refl).
    - discriminate (proj1 Hfood eq_refl). }
  assert (Hout2 : (match fs with
                   | None => (3%Z, ["first_service - NONE"%string])
                   | Some s => (s, [])
                   end).2
                  = if existsb (mentions U SERVICE_KW) review_sentences then []
                    else ["first_service - NONE"%string]).
  { destruct fs as [s|], (existsb (mentions U SERVICE_KW) review_sentences) eqn:He; try done.
    - discriminate (proj2 Hservice eq_refl).
    - discriminate (proj1 Hservice eq_refl). }
  rewrite <- Hout1, <- Hout2. by destruct ff, fs.
Qed.

(** ** Segmentation and concatenation *)

Lemma split_fold_app_sentences (raw : str) (sentences : list str) (acc : str) :
  fold_left split_step raw (sentences, acc)
  = (sentences ++ (fold_left split_step raw ([], acc)).1,
     (fold_left split_step raw ([], acc)).2).
Proof.
  revert sentences acc. induction raw as [|ch raw IH]; intros sentences acc; cbn [fold_left].
  - cbn [fst snd]. by rewrite app_nil_r.
  - unfold split_step at 2 4 6. destruct (Py.char_in (py ".!?") ch).
    + rewrite IH. rewrite (IH (if bool_decide _ then _ else _)).
      case_bool_decide; cbn [fst snd app]; [by rewrite <- app_assoc | done].
    + apply IH.
Qed.

Lemma split_fold_ends_empty (front : str) (ch : N) (st : list str * str) :
  Py.char_in (py ".!?") ch = true →
  (fold_left split_step (front ++ [ch]) st).2 = [].
Proof.
  intros Hch. rewrite fold_left_app. cbn [fold_left].
  destruct (fold_left split_step front st) as [sentences acc].
  unfold split_step. by rewrite Hch.
Qed.

(** X22: segmentation distributes over concatenation at a terminator:
    when the first text ends with ['.'], ['!'] or ['?'], the sentences of
    the two texts put together are the sentences of the first followed by
    the sentences of the second. *)
Theorem split_sentences_app (front : str) (ch : N) (rest : str) :
  Py.char_in (py ".!?") ch = true →
  split_sentences ((front ++ [ch]) ++ rest)
  = split_sentences (front ++ [ch]) ++ split_sentences rest.
Proof.
  intros Hch. unfold split_sentences. rewrite fold_left_app.
  pose proof (split_fold_ends_empty front ch ([], []) Hch) as Hacc.
  destruct (fold_left split_step (front ++ [ch]) ([], [])) as [s1 acc1].
  cbn [snd] in Hacc. subst acc1.
  rewrite split_fold_app_sentences.
  destruct (fold_left split_step rest ([], [])) as [s2 acc2]. cbn [fst snd].
  rewrite (bool_decide_eq_false_2 (Py.strip [] ≠ [])) by (by intros H; apply H).
  case_bool_decide.
  - by rewrite <- app_assoc, filter_app, map_app.
  - by rewrite filter_app, map_app.
Qed.

Lemma split_sentences_app_witness :
  split_sentences ((py "Comida boa" ++ py "!") ++ py " Atendimento ruim. Volto")
  = split_sentences (py "Comida boa" ++ py "!") ++ split_sentences (py " Atendimento ruim. Volto").
Proof. by apply split_sentences_app. Defined.

(** ** The empty needle *)

Lemma scan_from_empty_needle (hay : str) (n i : nat) :
  i + n = S (length hay) →
  scan_from hay [] (Z.of_nat i) (map Z.of_nat (seq i n)).
Proof.
  revert i. induction n as [|n IH]; intros i Hi; simpl.
  - apply scan_done. intros k Hk (pre & suf & Hhay & Hlen).
    rewrite Hhay, length_app in Hi. lia.
  - apply scan_match; [lia | | lia |].
    + exists (take i hay), (drop i hay). split; [cbn [app]; by rewrite take_drop |].
      rewrite length_take. lia.
    + replace (Z.of_nat i + Z.max 1 (Z.of_nat (length (@nil N))))%Z with (Z.of_nat (S i))
        by (simpl; lia).
      apply IH. lia.
Qed.

(** X23: with the empty needle the enumeration still ends: it returns
    every offset from 0 to [len hay], one step at a time. *)
Theorem positions_of_empty_needle (hay : str) :
  _positions hay [] = map Z.of_nat (seq 0 (S (length hay))).
Proof.
  unfold _positions.
  destruct (positions_loop_spec (length hay + 2) hay [] 0) as (starts & -> & Hscan);
    [lia | lia |].
  rewrite (scan_from_deterministic hay [] 0%Z starts (map Z.of_nat (seq 0 (S (length hay))))).
  - rewrite map_map. apply map_ext. intros k. unfold midpoint. cbn [length Z.of_nat].
    rewrite Z.div_0_l by lia. lia.
  - exact Hscan.
  - apply (scan_from_empty_needle hay (S (length hay)) 0). lia.
Qed.
